(** * fasm: the assembler for the Xonotic StackVM (fasm.py)

    A shallow embedding of [fasm.py] and the proofs of its specification.

    The program is a script: a parsy grammar, a first loop that fills the
    label table, a second loop that renders the instructions, and a last
    loop that writes one [alias] directive per instruction.

    Modelling choices, all local to this file:
    - source text is a [string] whose characters are the code points
      0..255; the classes [\s] and [\w] of Python's [re] on [str] patterns
      are written out for that range;
    - a parsy parser is a function from the remaining input to an optional
      pair of a result and the input left over (parsy's bookkeeping of the
      furthest position and of the expected tokens only feeds the text of
      the error message and is left out);
    - the label table is a [gmap string nat], the files of the run are a
      [gmap string string] from path to content;
    - [int()] and [str()] on integers are unbounded (the interpreter's
      optional limit on the number of digits is not modelled); a Python
      [float] is a binary64 value given by its mantissa and exponent. *)

From Stdlib Require Import ZArith NArith Ascii String List Lia.
From stdpp Require Import base option list strings pretty gmap fin_maps.

(** ** Characters *)

Module Chars.

Definition code (c : ascii) : N := N_of_ascii c.

Definition between (lo hi : N) (c : ascii) : bool :=
  ((lo <=? code c) && (code c <=? hi))%N.

(** [[0-9]] *)
Definition is_digit (c : ascii) : bool := between 48 57 c.

(** [[A-Za-z_]] *)
Definition is_ident_start (c : ascii) : bool :=
  between 65 90 c || between 97 122 c || (code c =? 95)%N.

(** [[A-Za-z0-9_]] *)
Definition is_ident_char (c : ascii) : bool :=
  is_ident_start c || is_digit c.

(** [\s] of a [str] pattern, on the code points below 256:
    tab, line feed, vertical tab, form feed, carriage return, the four
    separators 0x1c..0x1f, space, 0x85 and 0xa0. *)
Definition is_space (c : ascii) : bool :=
  between 9 13 c || between 28 32 c || (code c =? 133)%N || (code c =? 160)%N.

(** [\w] of a [str] pattern, on the code points below 256: the identifier
    characters and the Latin-1 letters and numeric characters. *)
Definition is_word (c : ascii) : bool :=
  is_ident_char c
  || (code c =? 170)%N || between 178 179 c || (code c =? 181)%N
  || between 185 186 c || between 188 190 c
  || between 192 214 c || between 216 246 c || between 248 255 c.

End Chars.

(** ** parsy *)

Module Parsy.

(** A parser consumes a prefix of the input: [Some (v, rest)] is parsy's
    [Result.success], [None] its [Result.failure]. *)
Definition Parser (A : Type) : Type := string -> option (A * string).

(** The longest prefix whose characters all satisfy [f], and what is left:
    a greedy [[...]*]. *)
Fixpoint span (f : ascii -> bool) (s : string) : string * string :=
  match s with
  | String c s' =>
      if f c then let '(m, r) := span f s' in (String c m, r) else ("", s)
  | EmptyString => ("", s)
  end.

(** [s] without the prefix [w], when it starts with [w]. *)
Fixpoint strip_prefix (w s : string) : option string :=
  match w, s with
  | EmptyString, _ => Some s
  | String a w', String b s' =>
      if Ascii.eqb a b then strip_prefix w' s' else None
  | String _ _, EmptyString => None
  end.

(** [string(w)] *)
Definition string_ (w : string) : Parser string := fun s =>
  match strip_prefix w s with
  | Some r => Some (w, r)
  | None => None
  end.

(** [p << q]: both in sequence, the result of [p]. *)
Definition skip {A B} (p : Parser A) (q : Parser B) : Parser A := fun s =>
  match p s with
  | Some (a, r) =>
      match q r with
      | Some (_, r') => Some (a, r')
      | None => None
      end
  | None => None
  end.

(** [p >> q]: both in sequence, the result of [q]. *)
Definition then_ {A B} (p : Parser A) (q : Parser B) : Parser B := fun s =>
  match p s with
  | Some (_, r) => q r
  | None => None
  end.

(** [p | q]: [q] is tried, from the same position, when [p] fails. *)
Definition alt {A} (p q : Parser A) : Parser A := fun s =>
  match p s with
  | Some res => Some res
  | None => q s
  end.

(** [p.map(f)] *)
Definition map {A B} (f : A -> B) (p : Parser A) : Parser B := fun s =>
  match p s with
  | Some (a, r) => Some (f a, r)
  | None => None
  end.

(** [p.result(v)] *)
Definition result {A B} (v : B) (p : Parser A) : Parser B :=
  map (fun _ => v) p.

(** [p.desc(d)] only names the parser in the error message. *)
Definition desc {A} (d : string) (p : Parser A) : Parser A := p.

(** [seq(p, q)]: the Python list of the two results, here a pair. *)
Definition seq {A B} (p : Parser A) (q : Parser B) : Parser (A * B) := fun s =>
  match p s with
  | Some (a, r) =>
      match q r with
      | Some (b, r') => Some ((a, b), r')
      | None => None
      end
  | None => None
  end.

(** [p + q] on parsers of [str]: [seq(p, q).combine(operator.add)], the
    concatenation of the two results. *)
Definition add (p q : Parser string) : Parser string :=
  map (fun ab => fst ab +:+ snd ab) (seq p q).

(** [p.many()] is [p.times(0, inf)]: [p] is applied until it fails, and the
    results so far are returned; [many] itself never fails. The loop of
    parsy has no bound, the fixpoint has [fuel]: [None] is the loop still
    running when the fuel is spent. *)
Fixpoint many_fuel {A} (fuel : nat) (p : Parser A) (s : string)
  : option (list A * string) :=
  match fuel with
  | O => None
  | S fuel' =>
      match p s with
      | None => Some ([], s)
      | Some (v, r) =>
          match many_fuel fuel' p r with
          | Some (vs, r') => Some (v :: vs, r')
          | None => None
          end
      end
  end.

(** One round more than the input has characters: enough for every parser
    that consumes at least one character when it succeeds
    ([many_fuel_enough]). *)
Definition many {A} (p : Parser A) : Parser (list A) := fun s =>
  many_fuel (S (String.length s)) p s.

(** [eof] *)
Definition eof : Parser unit := fun s =>
  match s with
  | EmptyString => Some (tt, "")
  | String _ _ => None
  end.

(** [p.parse(stream)] is [(p << eof).parse_partial(stream)] and raises
    [ParseError] on a failure: [None] here. *)
Definition parse {A} (p : Parser A) (s : string) : option A :=
  match skip p eof s with
  | Some (a, _) => Some a
  | None => None
  end.

End Parsy.

(** ** The Python values the grammar builds *)

Module Py.

Import Chars.

(** A [float] that a literal without sign can denote: [Finite m e] is
    [m * 2^e] with [0 <= m < 2^53] and [-1074 <= e <= 971], normalised
    ([2^52 <= m] unless [e = -1074]); [Inf] is the result of a literal
    above the largest finite binary64. *)
Inductive float : Type :=
  | Finite (m e : Z)
  | Inf.

(** An operand, or a label reference: [int], [float] or [str]. *)
Inductive value : Type :=
  | Int (z : Z)
  | Float (f : float)
  | Str (s : string).

Definition digit_value (c : ascii) : Z := Z.of_N (code c) - 48.

Fixpoint int_go (acc : Z) (s : string) : Z :=
  match s with
  | String c s' => int_go (10 * acc + digit_value c) s'
  | EmptyString => acc
  end.

(** [int(s)] on a string of decimal digits. *)
Definition int (s : string) : Z := int_go 0 s.

(** [n / d] rounded to the nearest binary64, ties to even, for [0 <= n]
    and [0 < d]. *)
Definition round_ratio (n d : Z) : float :=
  if (n =? 0)%Z then Finite 0 (-1074) else
  let l := (Z.log2 n - Z.log2 d)%Z in
  let above := if (0 <=? l)%Z then (d * 2 ^ l <=? n)%Z
               else (d <=? n * 2 ^ (- l))%Z in
  let e0 := if above then l else (l - 1)%Z in
  let e := Z.max (e0 - 52) (-1074) in
  let num := if (0 <=? e)%Z then n else (n * 2 ^ (- e))%Z in
  let den := if (0 <=? e)%Z then (d * 2 ^ e)%Z else d in
  let q := (num / den)%Z in
  let r := (num mod den)%Z in
  let q' := if (den <? 2 * r)%Z || ((2 * r =? den)%Z && Z.odd q)
            then (q + 1)%Z else q in
  let '(m, e') := if (q' =? 2 ^ 53)%Z then ((2 ^ 52)%Z, (e + 1)%Z)
                  else (q', e) in
  if (971 <? e')%Z then Inf else Finite m e'.

(** [float(s)] on digits with an optional fraction [digits.digits], the
    texts the grammar passes to it: the decimal value, correctly rounded. *)
Definition float_ (s : string) : float :=
  let '(ip, r) := Parsy.span is_digit s in
  let fp := match r with
            | String "." r' => fst (Parsy.span is_digit r')
            | _ => ""
            end in
  round_ratio (int (ip +:+ fp)) (10 ^ Z.of_nat (String.length fp)).

(** [a * 10^p * 2^q] as an integer once the common factor
    [10^p0 * 2^q0] is taken out ([p0 <= p], [q0 <= q]). *)
Definition scaled (a p q p0 q0 : Z) : Z := (a * 10 ^ (p - p0) * 2 ^ (q - q0))%Z.

(** The order of [a * 10^p * 2^q] and [b * 10^p' * 2^q']. *)
Definition cmp (a p q b p' q' : Z) : comparison :=
  let p0 := Z.min p p' in
  let q0 := Z.min q q' in
  (scaled a p q p0 q0 ?= scaled b p' q' p0 q0)%Z.

(** The largest [k] from [k0] on with [10^k <= m * 2^e]. *)
Fixpoint log10_from (fuel : nat) (k0 m e : Z) : Z :=
  match fuel with
  | O => k0
  | S fuel' =>
      match cmp 1 (k0 + 1) 0 m 0 e with
      | Gt => k0
      | _ => log10_from fuel' (k0 + 1)%Z m e
      end
  end.

(** Is [c * 10^t] read back as [m * 2^e]? The interval of the decimals that
    round to the float ends half a gap below and above it; the gap below is
    halved at a power of two; the end points belong to it when [m] is
    even. The bounds are in units of [2^(e-2)]. *)
Definition rounds_to (m e c t : Z) : bool :=
  let hi := (4 * m + 2)%Z in
  let lo := if (m =? 2 ^ 52)%Z && (-1074 <? e)%Z then (4 * m - 1)%Z
            else (4 * m - 2)%Z in
  let inside_lo := match cmp lo 0 (e - 2) c t 0 with
                   | Lt => true | Eq => Z.even m | Gt => false end in
  let inside_hi := match cmp c t 0 hi 0 (e - 2) with
                   | Lt => true | Eq => Z.even m | Gt => false end in
  inside_lo && inside_hi.

(** The candidates with [p] digits: the two multiples of [10^t] around the
    float, [t = k - p + 1]; the one that reads back as the float, the
    closer one when both do. *)
Definition candidate (m e k : Z) (p : nat) : option (Z * Z) :=
  let t := (k - Z.of_nat p + 1)%Z in
  let num := (m * 2 ^ Z.max e 0 * 10 ^ Z.max (- t) 0)%Z in
  let den := (2 ^ Z.max (- e) 0 * 10 ^ Z.max t 0)%Z in
  let c := (num / den)%Z in
  match rounds_to m e c t, rounds_to m e (c + 1) t with
  | true, true =>
      match cmp (2 * m) 0 e (2 * c + 1) t 0 with
      | Lt => Some (c, t)
      | Gt => Some ((c + 1)%Z, t)
      | Eq => Some (if Z.even c then c else (c + 1)%Z, t)
      end
  | true, false => Some (c, t)
  | false, true => Some ((c + 1)%Z, t)
  | false, false => None
  end.

(** The shortest decimal that reads back as the float: [p = 1, 2, ...]. *)
Fixpoint shortest (fuel : nat) (m e k : Z) (p : nat) : Z * Z :=
  match fuel with
  | O => (m, 0%Z)
  | S fuel' =>
      match candidate m e k p with
      | Some ct => ct
      | None => shortest fuel' m e k (S p)
      end
  end.

(** [c * 10^t] without the zeros at the end of [c]. *)
Fixpoint strip_zeros (fuel : nat) (c t : Z) : Z * Z :=
  match fuel with
  | O => (c, t)
  | S fuel' =>
      if (c mod 10 =? 0)%Z then strip_zeros fuel' (c / 10)%Z (t + 1)%Z
      else (c, t)
  end.

Fixpoint zeros (n : nat) : string :=
  match n with
  | O => ""
  | S n' => String "0" (zeros n')
  end.

Fixpoint take (n : nat) (s : string) : string :=
  match n, s with
  | S n', String c s' => String c (take n' s')
  | _, _ => ""
  end.

Fixpoint drop (n : nat) (s : string) : string :=
  match n, s with
  | S n', String _ s' => drop n' s'
  | _, _ => s
  end.

(** [repr] of a float, which is what [str] and an f-string give: the
    shortest digits that read back as the float, written with an exponent
    when the decimal point is more than 16 places to the right of the first
    digit or more than 3 zeros to its left, and in positional notation
    (with [.0] for an integral value) otherwise. *)
Definition repr_float (f : float) : string :=
  match f with
  | Inf => "inf"
  | Finite m e =>
      if (m =? 0)%Z then "0.0" else
      let k := log10_from 640 (-324) m e in
      let '(c0, t0) := shortest 17 m e k 1 in
      let '(c, t) := strip_zeros 17 c0 t0 in
      let ds := pretty c in
      let n := String.length ds in
      let decpt := (Z.of_nat n + t)%Z in
      if (decpt <=? -4)%Z || (16 <? decpt)%Z then
        let x := (decpt - 1)%Z in
        let mant := match ds with
                    | String d EmptyString => ds
                    | String d ds' => String d (String "." ds')
                    | EmptyString => ds
                    end in
        let xs := pretty (Z.abs x) in
        mant +:+ "e" +:+ (if (x <? 0)%Z then "-" else "+")
             +:+ (if (Z.abs x <? 10)%Z then "0" else "") +:+ xs
      else if (decpt <=? 0)%Z then
        "0." +:+ zeros (Z.to_nat (- decpt)) +:+ ds
      else if (Z.of_nat n <=? decpt)%Z then
        ds +:+ zeros (Z.to_nat decpt - n) +:+ ".0"
      else
        take (Z.to_nat decpt) ds +:+ "." +:+ drop (Z.to_nat decpt) ds
  end.

(** [str(v)], the text an f-string puts for [{v}]. *)
Definition str (v : value) : string :=
  match v with
  | Int z => pretty z
  | Float f => repr_float f
  | Str s => s
  end.

End Py.

(** ** The grammar (fasm.py, lines 19-142) *)

Module Grammar.

Import Chars Parsy.

(** *** Regular expressions

    Every pattern of the grammar is a sequence of greedy pieces none of
    which can give back a character to the next one, so that the match of
    the backtracking engine is the greedy one. *)

(** [[...]*] *)
Definition star (f : ascii -> bool) : Parser string := fun s =>
  Some (span f s).

(** [[...]+] *)
Definition plus (f : ascii -> bool) : Parser string := fun s =>
  match span f s with
  | (EmptyString, _) => None
  | res => Some res
  end.

(** [[c]] *)
Definition chr (c : ascii) : Parser string :=
  string_ (String c EmptyString).

(** The last character of a string. *)
Fixpoint last_char (w : string) : option ascii :=
  match w with
  | EmptyString => None
  | String c EmptyString => Some c
  | String _ w' => last_char w'
  end.

Definition word_char (c : option ascii) : bool :=
  match c with
  | Some c => is_word c
  | None => false
  end.

(** [\b] between the characters [before] and [after] ([None] at an end of
    the text): exactly one of the two is a word character. *)
Definition boundary (before after : option ascii) : bool :=
  xorb (word_char before) (word_char after).

Definition first_char (s : string) : option ascii :=
  match s with
  | String c _ => Some c
  | EmptyString => None
  end.

(** [regex(word + r"\b")], for a [word] of plain characters. *)
Definition regex_word (word : string) : Parser string := fun s =>
  match strip_prefix word s with
  | Some r =>
      if boundary (last_char word) (first_char r) then Some (word, r)
      else None
  | None => None
  end.

(** *** Tokens *)

(** [WHITESPACE = regex(r"\s*")] *)
Definition WHITESPACE : Parser string := star is_space.

(** [token(parser) = parser << WHITESPACE] *)
Definition token {A} (parser : Parser A) : Parser A :=
  skip parser WHITESPACE.

(** [literal(word) = token(regex(word + r"\b")).desc(word)] *)
Definition literal (word : string) : Parser string :=
  desc word (token (regex_word word)).

(** [IDENTIFIER = regex("[A-Za-z_]+[A-Za-z0-9_]*").desc("ident")] *)
Definition IDENTIFIER : Parser string :=
  desc "ident" (add (plus is_ident_start) (star is_ident_char)).

Definition COLON : Parser string := string_ ":".
Definition FORWARD_SLASH : Parser string := string_ "/".

(** [INTEGER = regex("[0-9]+").desc("integer").map(int)] *)
Definition INTEGER : Parser Py.value :=
  map (fun t => Py.Int (Py.int t)) (desc "integer" (plus is_digit)).

(** [FLOAT = regex("[0-9]*[.][0-9]+").desc("float").map(float)] *)
Definition FLOAT : Parser Py.value :=
  map (fun t => Py.Float (Py.float_ t))
      (desc "float" (add (star is_digit) (add (chr ".") (plus is_digit)))).

Definition NUMBER : Parser Py.value := alt FLOAT INTEGER.

Definition TRUE : Parser Py.value := result (Py.Int 1) (literal "true").
Definition FALSE : Parser Py.value := result (Py.Int 0) (literal "false").
Definition BOOLEAN : Parser Py.value := alt TRUE FALSE.

(** *** Nodes *)

(** The two dictionaries the grammar builds:
    [{"type": "label", "value": value}] and
    [{"type": "opcode", "value": {"opcode": opcode, "arg": arg}}]. *)
Inductive node : Type :=
  | Label (value : string)
  | Opcode (opcode : string) (arg : option Py.value).

(** [label(result)] *)
Definition label (result : string) : node := Label result.

(** [LABEL = token(IDENTIFIER << COLON).map(label)] *)
Definition LABEL : Parser node := map label (token (skip IDENTIFIER COLON)).

(** What an opcode parser returns: the [str] of a [literal], or the list
    of the two results of a [seq]. *)
Inductive parsed : Type :=
  | Word (w : string)
  | Pair (w : string) (arg : Py.value).

(** [seq(p, q)] as a value of [parsed]. *)
Definition seq_ (p : Parser string) (q : Parser Py.value) : Parser parsed :=
  map (fun wa => Pair (fst wa) (snd wa)) (seq p q).

(** A parser of [str] among the alternatives of [OPCODE]. *)
Definition word (p : Parser string) : Parser parsed := map Word p.

(** A parser of [str] where an operand is expected. *)
Definition str_ (p : Parser string) : Parser Py.value := map Py.Str p.

(** Stack operations *)
Definition PUSH : Parser parsed :=
  seq_ (literal "push")
       (alt (alt NUMBER BOOLEAN) (str_ (add FORWARD_SLASH IDENTIFIER))).
Definition POP := literal "pop".
Definition DUP := literal "dup".
Definition DOT := literal "dot".

Definition STACK_OP : Parser parsed :=
  alt (alt (alt PUSH (word POP)) (word DUP)) (word DOT).

(** Arithmetic operations *)
Definition ADD := literal "add".
Definition SUB := literal "sub".
Definition MUL := literal "mul".
Definition DIV := literal "div".
Definition POW := literal "pow".
Definition MIN := literal "min".
Definition MAX := literal "max".

Definition ARITHMETIC_OP : Parser parsed :=
  word (alt (alt (alt (alt (alt (alt ADD SUB) MUL) DIV) POW) MIN) MAX).

(** Branch operations *)
Definition JMP := literal "jmp".
Definition JIF := literal "jif".
Definition CALL := literal "call".
Definition RET := literal "ret".

Definition BRANCH_OP : Parser parsed :=
  alt (seq_ (alt (alt JMP JIF) CALL) (str_ IDENTIFIER)) (word RET).

(** Logical comparison operations *)
Definition EQ : Parser string := result "iseq" (literal "eq").
Definition NE : Parser string := result "isneq" (literal "ne").
Definition LT : Parser string := result "islt" (literal "lt").
Definition LE : Parser string := result "isle" (literal "le").
Definition GT : Parser string := result "isgt" (literal "gt").
Definition GE : Parser string := result "isge" (literal "ge").

Definition LOGICAL_OP : Parser parsed :=
  word (alt (alt (alt (alt (alt EQ NE) LT) LE) GT) GE).

(** IO operations *)
Definition STORE : Parser string := result "store_l" (literal "store").
Definition LOAD : Parser string := result "load_l" (literal "load").
Definition GSTORE : Parser string := result "store_g" (literal "gstore").
Definition GLOAD : Parser string := result "load_g" (literal "gload").

Definition IO_OP : Parser parsed :=
  seq_ (alt (alt (alt STORE LOAD) GSTORE) GLOAD) (str_ IDENTIFIER).

(** State operations *)
Definition HLT := literal "hlt".

(** [opcode(result)]: a list is an opcode with its argument. *)
Definition opcode (result : parsed) : node :=
  match result with
  | Pair w a => Opcode w (Some a)
  | Word w => Opcode w None
  end.

(** [OPCODE = token(STACK_OP | ARITHMETIC_OP | BRANCH_OP | LOGICAL_OP | IO_OP
    | HLT).map(opcode)] *)
Definition OPCODE : Parser node :=
  map opcode
      (token (alt (alt (alt (alt (alt STACK_OP ARITHMETIC_OP) BRANCH_OP)
                            LOGICAL_OP) IO_OP) (word HLT))).

(** [statement = LABEL | OPCODE] *)
Definition statement : Parser node := alt LABEL OPCODE.

(** [program = WHITESPACE >> statement.many()] *)
Definition program : Parser (list node) := then_ WHITESPACE (many statement).

End Grammar.

(** ** The assembler backend (fasm.py, lines 144-218) *)

Module Fasm.

Import Grammar.

(** The arguments of the command line: the input file and [--output]. *)
Record cli_arguments : Type := { file : string; output : string }.

(** The exceptions that end a run: [FileNotFoundError] for the input file,
    parsy's [ParseError], and
    [Exception(f"Undefined label: '{label_name}'")]. *)
Inductive error : Type :=
  | FileNotFound (path : string)
  | ParseError
  | UndefinedLabel (label_name : string).

(** [ast = program.parse(source_code)] *)
Definition parse_source (source_code : string) : option (list node) :=
  Parsy.parse program source_code.

(** *** First pass: the label table (lines 158-173)

    The state of the loop is [(address_counter, labels)]. The [else] branch
    of the loop, for a node that is neither a label nor an opcode, is not
    reachable with the two kinds of node the grammar builds. *)
Definition pass1_step (st : nat * gmap string nat) (n : node)
  : nat * gmap string nat :=
  let '(address_counter, labels) := st in
  match n with
  | Label l => (address_counter, <[l := address_counter]> labels)
  | Opcode _ _ => (S address_counter, labels)
  end.

Definition pass1_from (st : nat * gmap string nat) (ast : list node)
  : nat * gmap string nat :=
  fold_left pass1_step ast st.

Definition pass1 (ast : list node) : nat * gmap string nat :=
  pass1_from (0, ∅) ast.

(** The dictionary [labels] after the first loop. *)
Definition label_table (ast : list node) : gmap string nat := snd (pass1 ast).

(** *** Second pass: the instructions (lines 176-209) *)

(** [opcode in ("call", "jmp", "jif")] *)
Definition is_branch (opcode : string) : bool :=
  String.eqb opcode "call" || String.eqb opcode "jmp" || String.eqb opcode "jif".

(** [labels[label_name]], [None] when [label_name not in labels.keys()]:
    the keys are [str], no other value is one of them. *)
Definition lookup_label (labels : gmap string nat) (label_name : Py.value)
  : option nat :=
  match label_name with
  | Py.Str name => labels !! name
  | _ => None
  end.

(** The text appended to [instructions] for one opcode node. *)
Definition render (labels : gmap string nat) (opcode : string)
    (arg : option Py.value) : error + string :=
  match arg with
  | Some a =>
      if is_branch opcode then
        match lookup_label labels a with
        | None => inl (UndefinedLabel (Py.str a))
        | Some label_address => inr (opcode +:+ " " +:+ pretty label_address)
        end
      else inr (opcode +:+ " " +:+ Py.str a)
  | None => inr opcode
  end.

(** One round of the loop on the state [(address_counter, instructions)]:
    a label node is skipped by [continue], before the counter moves. *)
Definition pass2_step (labels : gmap string nat) (st : nat * list string)
    (n : node) : error + nat * list string :=
  let '(address_counter, instructions) := st in
  match n with
  | Label _ => inr (address_counter, instructions)
  | Opcode opcode arg =>
      match render labels opcode arg with
      | inl e => inl e
      | inr text => inr (S address_counter, instructions ++ [text])
      end
  end.

Fixpoint pass2_from (labels : gmap string nat) (st : nat * list string)
    (ast : list node) : error + nat * list string :=
  match ast with
  | [] => inr st
  | n :: ast' =>
      match pass2_step labels st n with
      | inl e => inl e
      | inr st' => pass2_from labels st' ast'
      end
  end.

(** The list [instructions] after the second loop. *)
Definition generate (labels : gmap string nat) (ast : list node)
  : error + list string :=
  match pass2_from labels (0, []) ast with
  | inl e => inl e
  | inr (_, instructions) => inr instructions
  end.

(** *** Emission (lines 212-218) *)

Definition quote : string := String "034"%char EmptyString.
Definition newline : string := String "010"%char EmptyString.

(** [f'alias __svm.{index} "{instruction}"\n'] *)
Definition directive (index : nat) (instruction : string) : string :=
  "alias __svm." +:+ pretty index +:+ " " +:+ quote +:+ instruction
    +:+ quote +:+ newline.

(** The loop over [enumerate(instructions)], from [index] on. *)
Fixpoint emit_from (index : nat) (vm_program : string)
    (instructions : list string) : string :=
  match instructions with
  | [] => vm_program
  | instruction :: rest =>
      emit_from (S index) (vm_program +:+ directive index instruction) rest
  end.

Definition emit (instructions : list string) : string :=
  emit_from 0 "" instructions.

(** *** The script

    The files are a map from path to content; the run returns the
    exception that ended it, if any, and the files afterwards. The output
    file is opened only once [instructions] is complete. *)
Definition run (cli : cli_arguments) (fs : gmap string string)
  : option error * gmap string string :=
  match fs !! file cli with
  | None => (Some (FileNotFound (file cli)), fs)
  | Some source_code =>
      match parse_source source_code with
      | None => (Some ParseError, fs)
      | Some ast =>
          let labels := label_table ast in
          match generate labels ast with
          | inl e => (Some e, fs)
          | inr instructions =>
              (None, <[output cli := emit instructions]> fs)
          end
      end
  end.

(** The text of the output for a source text, without the files. *)
Definition assemble (source_code : string) : error + string :=
  match parse_source source_code with
  | None => inl ParseError
  | Some ast =>
      match generate (label_table ast) ast with
      | inl e => inl e
      | inr instructions => inr (emit instructions)
      end
  end.

End Fasm.

(** ** Notions of the specification *)

Import Chars Parsy Grammar Fasm.

(** The opcode nodes of a node sequence, in source order. *)
Fixpoint instructions_of (ast : list node) : list (string * option Py.value) :=
  match ast with
  | [] => []
  | Label _ :: ast' => instructions_of ast'
  | Opcode opcode arg :: ast' => (opcode, arg) :: instructions_of ast'
  end.

(** The number of opcode nodes. *)
Definition instruction_count (ast : list node) : nat :=
  length (instructions_of ast).

(** A label node of that name occurs in the sequence. *)
Definition declared (name : string) (ast : list node) : Prop :=
  In (Label name) ast.

(** The second loop on the opcode nodes alone: the texts of all of them, or
    the error of the first one that has none. *)
Fixpoint render_all (labels : gmap string nat)
    (l : list (string * option Py.value)) : error + list string :=
  match l with
  | [] => inr []
  | (opcode, arg) :: l' =>
      match render labels opcode arg with
      | inl e => inl e
      | inr text =>
          match render_all labels l' with
          | inl e => inl e
          | inr texts => inr (text :: texts)
          end
      end
  end.

(** The concatenation of a list of strings. *)
Definition concat_strings (l : list string) : string :=
  foldr String.append "" l.

(** *** Parsers *)

(** A parser that never gives back more input than it got. *)
Definition nongrowing {A} (p : Parser A) : Prop :=
  forall s v r, p s = Some (v, r) -> String.length r <= String.length s.

(** A parser that consumes at least one character when it succeeds. *)
Definition shrinking {A} (p : Parser A) : Prop :=
  forall s v r, p s = Some (v, r) -> String.length r < String.length s.

(** Every result of the parser satisfies [P]. *)
Definition yields {A} (p : Parser A) (P : A -> Prop) : Prop :=
  forall s v r, p s = Some (v, r) -> P v.

(** The statements recognised one after the other from [s], up to the
    first position [r] where [statement] fails. *)
Inductive statements : string -> list node -> string -> Prop :=
  | statements_stop s :
      statement s = None -> statements s [] s
  | statements_step s n r ns r' :
      statement s = Some (n, r) -> statements r ns r' ->
      statements s (n :: ns) r'.

(** The operand of a branch opcode is a [str]. *)
Definition wf_parsed (x : parsed) : Prop :=
  match x with
  | Pair w a => is_branch w = true -> exists name, a = Py.Str name
  | Word _ => True
  end.

Definition wf_node (n : node) : Prop :=
  match n with
  | Opcode w (Some a) => is_branch w = true -> exists name, a = Py.Str name
  | _ => True
  end.

(** *** Texts *)

(** Every character of the string satisfies [f]. *)
Fixpoint all_chars (f : ascii -> bool) (s : string) : bool :=
  match s with
  | String c s' => f c && all_chars f s'
  | EmptyString => true
  end.

(** The string does not start with a character that satisfies [f]. *)
Definition stops (f : ascii -> bool) (s : string) : bool :=
  match s with
  | String c _ => negb (f c)
  | EmptyString => true
  end.

(** A text of the shape [[A-Za-z_][A-Za-z0-9_]*]. *)
Definition is_identifier (s : string) : bool :=
  match s with
  | String c s' => is_ident_start c && all_chars is_ident_char s'
  | EmptyString => false
  end.

(** A text of the shape [[0-9]+]. *)
Definition is_digits (s : string) : bool :=
  match s with
  | String c s' => is_digit c && all_chars is_digit s'
  | EmptyString => false
  end.

(** The words given to [literal] in the grammar. *)
Definition keywords : list string :=
  ["true"; "false"; "push"; "pop"; "dup"; "dot"; "add"; "sub"; "mul"; "div";
   "pow"; "min"; "max"; "jmp"; "jif"; "call"; "ret"; "eq"; "ne"; "lt"; "le";
   "gt"; "ge"; "store"; "load"; "gstore"; "gload"; "hlt"].

(** *** Example programs *)

(** The program [x: push 1 x: push 2 jmp x x: hlt]. *)
Definition thrice : list node :=
  [Label "x"; Opcode "push" (Some (Py.Int 1));
   Label "x"; Opcode "push" (Some (Py.Int 2));
   Opcode "jmp" (Some (Py.Str "x"));
   Label "x"; Opcode "hlt" None].

(** The program of the specification:
    [start: push 1 push 2 add jmp start]. *)
Definition countdown : list node :=
  [Label "start"; Opcode "push" (Some (Py.Int 1));
   Opcode "push" (Some (Py.Int 2)); Opcode "add" None;
   Opcode "jmp" (Some (Py.Str "start"))].

Definition countdown_files : gmap string string :=
  {["a.fasm" := "start: push 1 push 2 add jmp start"]}.


(** *** Whitespace at the end of the text *)

(** What is left of the input once [ws] is put at its end. *)
Definition extend (r ws : string) : string := r +:+ ws.

(** A parser that does not look at whitespace: with whitespace put at the
    end of the text it fails as before, or succeeds as before and leaves
    the whitespace, or, having left nothing before, has taken the
    whitespace as well. *)
Definition stable {A} (p : Parser A) : Prop :=
  forall s ws, all_chars is_space ws = true ->
    match p s with
    | None => p (s +:+ ws) = None
    | Some (v, r) =>
        p (s +:+ ws) = Some (v, extend r ws)
        \/ (r = "" /\ p (s +:+ ws) = Some (v, ""))
    end.

(** A parser that ends with [WHITESPACE]: when it left nothing before, it
    leaves nothing of the whitespace either. *)
Definition tok_stable {A} (p : Parser A) : Prop :=
  forall s ws, all_chars is_space ws = true ->
    p (s +:+ ws)
    = match p s with
      | None => None
      | Some (v, r) =>
          Some (v, match r with EmptyString => "" | _ => extend r ws end)
      end.

(** *** Where a statement starts and ends *)

(** A parser that only succeeds on a text that starts with a letter or an
    underscore. *)
Definition letter_first {A} (p : Parser A) : Prop :=
  forall s v r, p s = Some (v, r) -> stops is_ident_start s = false.

(** A parser that leaves no whitespace at the start of the rest. *)
Definition trims {A} (p : Parser A) : Prop :=
  forall s v r, p s = Some (v, r) -> stops is_space r = true.

(** *** The shape of the nodes *)

(** The opcode names of the nodes without operand. *)
Definition nullary : list string :=
  ["pop"; "dup"; "dot"; "add"; "sub"; "mul"; "div"; "pow"; "min"; "max";
   "ret"; "iseq"; "isneq"; "islt"; "isle"; "isgt"; "isge"; "hlt"].

(** The opcode names of the nodes whose operand is an identifier: the
    branches and the accesses to variables. *)
Definition with_identifier : list string :=
  ["jmp"; "jif"; "call"; "store_l"; "load_l"; "store_g"; "load_g"].

(** The operand of [push]: a natural number, a float, or the marker and
    an identifier. *)
Definition operand_ok (v : Py.value) : Prop :=
  match v with
  | Py.Int z => (0 <= z)%Z
  | Py.Float _ => True
  | Py.Str s => exists name, s = "/" +:+ name /\ is_identifier name = true
  end.

Definition parsed_ok (x : parsed) : Prop :=
  match x with
  | Word w => In w nullary
  | Pair w a =>
      (w = "push" /\ operand_ok a)
      \/ (In w with_identifier
          /\ exists name, a = Py.Str name /\ is_identifier name = true)
  end.

Definition node_ok (n : node) : Prop :=
  match n with
  | Label l => is_identifier l = true
  | Opcode w None => In w nullary
  | Opcode w (Some a) =>
      (w = "push" /\ operand_ok a)
      \/ (In w with_identifier
          /\ exists name, a = Py.Str name /\ is_identifier name = true)
  end.

(** *** The lines of the output *)

(** A character that is not the line feed. *)
Definition no_newline (c : ascii) : bool := negb (Ascii.eqb c "010").

(** A character that is neither the quote nor the line feed. *)
Definition plain (c : ascii) : bool :=
  negb (Ascii.eqb c "034") && no_newline c.

(** The lines of a text, each without its line feed; [cur] is the line
    read so far. *)
Fixpoint split_lines (cur s : string) : list string :=
  match s with
  | EmptyString =>
      match cur with
      | EmptyString => []
      | _ => [cur]
      end
  | String c s' =>
      if Ascii.eqb c "010" then cur :: split_lines "" s'
      else split_lines (cur +:+ String c "") s'
  end.

Definition lines (s : string) : list string := split_lines "" s.

(** A directive without its line feed. *)
Definition directive_line (index : nat) (instruction : string) : string :=
  "alias __svm." +:+ pretty index +:+ " " +:+ quote +:+ instruction +:+ quote.

(** Some branch instruction of the sequence names the label. *)
Definition referenced (name : string) (ast : list node) : Prop :=
  exists opcode,
    In (Opcode opcode (Some (Py.Str name))) ast /\ is_branch opcode = true.

(** A character with which no operand of [push] starts: not a digit, not
    the point, not the marker, and not the first letter of [true] or
    [false]. *)
Definition no_operand_start (c : ascii) : bool :=
  negb (is_digit c) && negb (Ascii.eqb "." c) && negb (Ascii.eqb "/" c)
  && negb (Ascii.eqb "t" c) && negb (Ascii.eqb "f" c).

(** The source spellings of the opcodes that take an identifier. *)
Definition identifier_keywords : list string :=
  ["jmp"; "jif"; "call"; "store"; "load"; "gstore"; "gload"].

(** The keywords without operand and the opcode names of their nodes. *)
Definition nullary_table : list (string * string) :=
  [("pop", "pop"); ("dup", "dup"); ("dot", "dot"); ("add", "add");
   ("sub", "sub"); ("mul", "mul"); ("div", "div"); ("pow", "pow");
   ("min", "min"); ("max", "max"); ("ret", "ret"); ("eq", "iseq");
   ("ne", "isneq"); ("lt", "islt"); ("le", "isle"); ("gt", "isgt");
   ("ge", "isge"); ("hlt", "hlt")].

(** The keywords with an identifier and the opcode names of their
    nodes. *)
Definition identifier_table : list (string * string) :=
  [("jmp", "jmp"); ("jif", "jif"); ("call", "call"); ("store", "store_l");
   ("load", "load_l"); ("gstore", "store_g"); ("gload", "load_g")].

(** ** The first pass *)

Lemma instructions_of_app a b :
  instructions_of (a ++ b) = instructions_of a ++ instructions_of b.
Proof.
  induction a as [|[l|o x] a IH]; simpl; [done | done | by rewrite IH].
Qed.

Lemma pass1_from_app st a b :
  pass1_from st (a ++ b) = pass1_from (pass1_from st a) b.
Proof. apply fold_left_app. Qed.

Lemma pass1_from_counter c (labels : gmap string nat) ast :
  fst (pass1_from (c, labels) ast) = c + instruction_count ast.
Proof.
  revert c labels.
  induction ast as [|[l|o x] ast IH]; intros c labels; simpl.
  - unfold instruction_count. simpl. lia.
  - apply IH.
  - unfold pass1_from in *. simpl. rewrite IH. unfold instruction_count. simpl. lia.
Qed.

Lemma pass1_from_undeclared c (labels : gmap string nat) ast name :
  ¬ declared name ast ->
  snd (pass1_from (c, labels) ast) !! name = labels !! name.
Proof.
  revert c labels.
  induction ast as [|[l|o x] ast IH]; intros c labels Hn; simpl.
  - done.
  - unfold pass1_from in *. simpl. rewrite IH.
    + apply lookup_insert_ne. intros ->. apply Hn. by left.
    + intros H. apply Hn. by right.
  - unfold pass1_from in *. simpl. apply IH. intros H. apply Hn. by right.
Qed.

Lemma pass1_surjective st ast :
  pass1_from st ast = (fst (pass1_from st ast), snd (pass1_from st ast)).
Proof. by destruct (pass1_from st ast). Qed.

Lemma label_table_last pre post name :
  ¬ declared name post ->
  label_table (pre ++ Label name :: post) !! name
  = Some (instruction_count pre).
Proof.
  intros Hn. unfold label_table, pass1.
  rewrite pass1_from_app, (pass1_surjective _ pre). simpl.
  change (fold_left pass1_step post ?st) with (pass1_from st post).
  rewrite pass1_from_undeclared by done.
  rewrite pass1_from_counter. simpl. apply lookup_insert_eq.
Qed.

Lemma label_table_undeclared ast name :
  ¬ declared name ast -> label_table ast !! name = None.
Proof.
  intros Hn. unfold label_table, pass1.
  by rewrite pass1_from_undeclared.
Qed.

Lemma declared_dec name ast : {declared name ast} + {¬ declared name ast}.
Proof.
  unfold declared. apply in_dec. decide equality; try apply string_dec.
  destruct arg as [v|], arg0 as [v0|]; try (right; congruence); [|by left].
  assert ({v = v0} + {v <> v0}) as [->|Hne]; [|by left|right; congruence].
  decide equality; try apply Z.eq_dec; try apply string_dec.
  decide equality; apply Z.eq_dec.
Qed.

Lemma declared_last name ast :
  declared name ast ->
  exists pre post, ast = pre ++ Label name :: post /\ ¬ declared name post.
Proof.
  induction ast as [|n ast IH]; intros Hd; [destruct Hd|].
  destruct (declared_dec name ast) as [Hin|Hnot].
  - destruct (IH Hin) as (pre & post & -> & Hp).
    exists (n :: pre), post. done.
  - destruct Hd as [->|Hd]; [|done].
    exists [], ast. done.
Qed.

Lemma label_table_declared ast name :
  declared name ast <-> is_Some (label_table ast !! name).
Proof.
  split.
  - intros (pre & post & -> & Hp)%declared_last.
    rewrite label_table_last by done. by eexists.
  - intros [a Ha]. destruct (declared_dec name ast) as [|Hn]; [done|].
    rewrite label_table_undeclared in Ha by done. done.
Qed.

(** ** The second pass *)

Lemma in_instructions_of ast opcode arg :
  In (opcode, arg) (instructions_of ast) <-> In (Opcode opcode arg) ast.
Proof.
  induction ast as [|[l|o x] ast IH]; simpl.
  - done.
  - rewrite IH. split; [by right|]. by intros [?|?].
  - rewrite IH. split; (intros [H|H]; [left; congruence|by right]).
Qed.

Lemma pass2_from_render_all labels c ins ast :
  pass2_from labels (c, ins) ast
  = match render_all labels (instructions_of ast) with
    | inl e => inl e
    | inr texts => inr (c + length texts, ins ++ texts)
    end.
Proof.
  revert c ins.
  induction ast as [|[l|o x] ast IH]; intros c ins; simpl.
  - by rewrite Nat.add_0_r, app_nil_r.
  - apply IH.
  - destruct (render labels o x) as [e|text]; [done|].
    rewrite IH. destruct (render_all labels (instructions_of ast)); [done|].
    simpl. by rewrite <- app_assoc, Nat.add_succ_r.
Qed.

Lemma generate_render_all labels ast :
  generate labels ast = render_all labels (instructions_of ast).
Proof.
  unfold generate. rewrite pass2_from_render_all.
  by destruct (render_all labels (instructions_of ast)).
Qed.

(** The counter of the second loop ends where the counter of the first
    one does. *)
Lemma pass2_counter labels ast c instructions :
  pass2_from labels (0, []) ast = inr (c, instructions) ->
  c = fst (pass1 ast) /\ c = length instructions.
Proof.
  rewrite pass2_from_render_all.
  destruct (render_all labels (instructions_of ast)) as [e|texts] eqn:E;
    [done|].
  intros [= <- <-]. split; [|done].
  unfold pass1. rewrite pass1_from_counter. simpl.
  unfold instruction_count. clear -E.
  revert texts E.
  induction (instructions_of ast) as [|[o x] l IH]; intros texts; simpl.
  - by intros [= <-].
  - destruct (render labels o x); [done|].
    destruct (render_all labels l); [done|].
    intros [= <-]. simpl. f_equal. by apply IH.
Qed.

Lemma render_all_inr labels l texts :
  render_all labels l = inr texts <->
  Forall2 (fun oa text => render labels (fst oa) (snd oa) = inr text) l texts.
Proof.
  revert texts. induction l as [|[o x] l IH]; intros texts; simpl.
  - split; [intros [= <-]; constructor | by intros ->%Forall2_nil_inv_l].
  - split.
    + destruct (render labels o x) as [|t] eqn:E; [done|].
      destruct (render_all labels l) as [|ts]; [done|].
      intros [= <-]. constructor; [done|]. by apply IH.
    + intros (t & ts & Ht & Hts & ->)%Forall2_cons_inv_l. simpl in Ht.
      rewrite Ht. apply IH in Hts. by rewrite Hts.
Qed.

Lemma render_all_inl labels l e :
  render_all labels l = inl e ->
  exists opcode arg, In (opcode, arg) l /\ render labels opcode arg = inl e.
Proof.
  induction l as [|[o x] l IH]; simpl; [done|].
  destruct (render labels o x) as [e'|t] eqn:E.
  - intros [= ->]. exists o, x. split; [by left|done].
  - destruct (render_all labels l) as [e'|ts]; [|done].
    intros [= ->]. destruct IH as (o' & x' & Hin & Hr); [done|].
    exists o', x'. split; [by right|done].
Qed.

Lemma render_all_fails labels l opcode arg e :
  In (opcode, arg) l -> render labels opcode arg = inl e ->
  exists e', render_all labels l = inl e'.
Proof.
  induction l as [|[o x] l IH]; simpl; [done|].
  intros [[= -> ->]|Hin] Hr.
  - rewrite Hr. by eexists.
  - destruct (render labels o x) as [e'|t]; [by eexists|].
    destruct (IH Hin Hr) as [e' ->]. by eexists.
Qed.

(** [render] only fails on a branch instruction whose operand is not a key
    of the table, with the text of the operand in the error. *)
Lemma render_inl labels opcode arg e :
  render labels opcode arg = inl e <->
  exists a, arg = Some a /\ is_branch opcode = true
            /\ lookup_label labels a = None /\ e = UndefinedLabel (Py.str a).
Proof.
  unfold render. destruct arg as [a|].
  - destruct (is_branch opcode).
    + destruct (lookup_label labels a) eqn:E.
      * split; [done|]. intros (a' & [= <-] & _ & H & _). congruence.
      * split; [intros [= <-]; by exists a|].
        intros (a' & [= <-] & _ & _ & ->). done.
    + split; [done|]. by intros (a' & _ & ? & _).
  - split; [done|]. by intros (a' & ? & _).
Qed.

(** ** Emission *)

Lemma append_cons x (a b : string) : String x a +:+ b = String x (a +:+ b).
Proof. reflexivity. Qed.

Lemma append_nil_l (a : string) : "" +:+ a = a.
Proof. reflexivity. Qed.

Lemma append_assoc (a b c : string) : (a +:+ b) +:+ c = a +:+ b +:+ c.
Proof.
  induction a as [|x a IH]; [done|]. by rewrite !append_cons, IH.
Qed.

Lemma append_empty_r (a : string) : a +:+ "" = a.
Proof. induction a as [|x a IH]; [done|]. by rewrite append_cons, IH. Qed.

Lemma emit_from_directives index vm_program instructions :
  emit_from index vm_program instructions
  = vm_program
    +:+ concat_strings (imap (fun i => directive (index + i)) instructions).
Proof.
  revert index vm_program.
  induction instructions as [|t l IH]; intros index vm_program.
  - simpl. by rewrite append_empty_r.
  - cbn [emit_from imap concat_strings foldr].
    rewrite IH, append_assoc, Nat.add_0_r. do 2 f_equal.
    unfold concat_strings. f_equal.
    apply imap_ext. intros i x _. simpl. f_equal. lia.
Qed.

Lemma emit_directives instructions :
  emit instructions = concat_strings (imap directive instructions).
Proof. unfold emit. by rewrite emit_from_directives. Qed.

(** ** Branches and the label table *)

(** A branch to a declared name is rendered with the address of the last
    declaration of the name, wherever the branch stands. *)
Lemma render_branch_declared pre post name opcode :
  ¬ declared name post -> is_branch opcode = true ->
  render (label_table (pre ++ Label name :: post)) opcode (Some (Py.Str name))
  = inr (opcode +:+ " " +:+ pretty (instruction_count pre)).
Proof.
  intros Hpost Hb. unfold render. rewrite Hb. simpl.
  by rewrite label_table_last.
Qed.

(** The text at a slot of the output is the rendering of the opcode node
    of that slot. *)
Lemma generate_lookup labels ast instructions i opcode arg :
  generate labels ast = inr instructions ->
  instructions_of ast !! i = Some (opcode, arg) ->
  exists text,
    render labels opcode arg = inr text /\ instructions !! i = Some text.
Proof.
  rewrite generate_render_all, render_all_inr. intros HF Hi.
  destruct (Forall2_lookup_l _ _ _ _ _ HF Hi) as (text & Ht & Hr).
  exists text. done.
Qed.

Lemma generate_length labels ast instructions :
  generate labels ast = inr instructions ->
  length instructions = instruction_count ast.
Proof.
  rewrite generate_render_all, render_all_inr. intros HF.
  unfold instruction_count. by rewrite (Forall2_length _ _ _ HF).
Qed.

Lemma instructions_of_lookup_middle pre name opcode arg post :
  instructions_of (pre ++ Label name :: Opcode opcode arg :: post)
    !! instruction_count pre = Some (opcode, arg).
Proof.
  rewrite instructions_of_app. simpl. unfold instruction_count.
  by rewrite list_lookup_middle.
Qed.

(** C1: the address bound to a label is the number of opcode nodes before
    the label node; the counter starts at 0, a label node leaves it where
    it is, an opcode node adds one to it and binds nothing; the table in
    the end holds, for a name, the address bound at its last label node. *)
Theorem C1_label_address (pre post : list node) (name : string) :
  ¬ declared name post ->
  pass1 [] = (0, ∅)
  /\ fst (pass1 pre) = instruction_count pre
  /\ pass1 (pre ++ [Label name])
     = (instruction_count pre,
        <[name := instruction_count pre]> (label_table pre))
  /\ (forall opcode arg,
        pass1 (pre ++ [Opcode opcode arg])
        = (S (instruction_count pre), label_table pre))
  /\ label_table (pre ++ Label name :: post) !! name
     = Some (instruction_count pre).
Proof.
  intros Hpost.
  assert (Hc : fst (pass1 pre) = instruction_count pre).
  { unfold pass1. by rewrite pass1_from_counter. }
  assert (Hs : forall n, pass1 (pre ++ [n]) = pass1_step (pass1 pre) n).
  { intros n. unfold pass1. by rewrite pass1_from_app. }
  split; [done|]. split; [done|]. unfold label_table. rewrite <- Hc.
  split; [|split].
  - rewrite Hs. by destruct (pass1 pre).
  - intros opcode arg. rewrite Hs. by destruct (pass1 pre).
  - rewrite Hc. by apply label_table_last.
Qed.

Lemma C1_label_address_witness :
  label_table
    ([Opcode "push" (Some (Py.Int 1)); Label "a"; Opcode "pop" None]
       ++ Label "a" :: [Opcode "hlt" None]) !! "a"
  = Some 2.
Proof.
  apply (C1_label_address
           [Opcode "push" (Some (Py.Int 1)); Label "a"; Opcode "pop" None]
           [Opcode "hlt" None] "a").
  intros [H|[]]. discriminate H.
Defined.

(** C3 (amended): a branch instruction is rendered with the address of the
    last declaration of its label in the whole program, also when the
    instruction stands before that declaration: the table is complete
    before the first instruction is rendered. *)
Theorem C3_last_declaration_wins (pre post : list node) (name opcode : string)
    (instructions : list string) (i : nat) :
  ¬ declared name post ->
  is_branch opcode = true ->
  generate (label_table (pre ++ Label name :: post))
           (pre ++ Label name :: post) = inr instructions ->
  instructions_of (pre ++ Label name :: post) !! i
  = Some (opcode, Some (Py.Str name)) ->
  instructions !! i = Some (opcode +:+ " " +:+ pretty (instruction_count pre)).
Proof.
  intros Hpost Hb Hg Hi.
  destruct (generate_lookup _ _ _ _ _ _ Hg Hi) as (text & Hr & Ht).
  rewrite render_branch_declared in Hr by done. congruence.
Qed.

Lemma C3_last_declaration_wins_witness :
  ["push 1"; "push 2"; "jmp 3"; "hlt"] !! 2
  = Some ("jmp" +:+ " " +:+ pretty (instruction_count (take 5 thrice))).
Proof.
  apply (C3_last_declaration_wins (take 5 thrice) (drop 6 thrice) "x" "jmp").
  - intros [H|[]]. discriminate H.
  - reflexivity.
  - vm_compute. reflexivity.
  - reflexivity.
Defined.

(** C3 as stated fails on [x: push 1 x: push 2 jmp x x: hlt]: the second
    declaration binds address 1, the [jmp] stands between the second and
    the third declaration, and it is rendered with 3, the address of the
    third. *)
Lemma C3_counterexample :
  parse_source "x: push 1 x: push 2 jmp x x: hlt" = Some thrice
  /\ pass1 (take 3 thrice) = (1, {["x" := 1]})
  /\ generate (label_table thrice) thrice
     = inr ["push 1"; "push 2"; "jmp 3"; "hlt"]
  /\ "jmp 3" <> "jmp 1".
Proof.
  split; [vm_compute; reflexivity|].
  split; [vm_compute; reflexivity|].
  split; [vm_compute; reflexivity|].
  discriminate.
Qed.

(** C4: when a label is declared exactly once, every branch to it, before
    or after the declaration, is rendered with the one address of the
    declaration, which is the slot of the instruction that follows the
    label. *)
Theorem C4_order_independent (pre post : list node) (name opcode : string)
    (instructions : list string) (i : nat) :
  ¬ declared name pre ->
  ¬ declared name post ->
  is_branch opcode = true ->
  generate (label_table (pre ++ Label name :: post))
           (pre ++ Label name :: post) = inr instructions ->
  instructions_of (pre ++ Label name :: post) !! i
  = Some (opcode, Some (Py.Str name)) ->
  instructions !! i = Some (opcode +:+ " " +:+ pretty (instruction_count pre))
  /\ (forall o a post',
        post = Opcode o a :: post' ->
        instructions_of (pre ++ Label name :: post) !! instruction_count pre
        = Some (o, a)).
Proof.
  intros _ Hpost Hb Hg Hi. split.
  - destruct (generate_lookup _ _ _ _ _ _ Hg Hi) as (text & Hr & Ht).
    rewrite render_branch_declared in Hr by done. congruence.
  - intros o a post' ->. apply instructions_of_lookup_middle.
Qed.

(** The program [jmp end push 1 end: hlt]: the [jmp] comes first and is
    rendered with 2, the slot of [hlt]. *)
Lemma C4_order_independent_witness :
  parse_source "jmp end push 1 end: hlt"
  = Some ([Opcode "jmp" (Some (Py.Str "end")); Opcode "push" (Some (Py.Int 1))]
            ++ Label "end" :: [Opcode "hlt" None])
  /\ ["jmp 2"; "push 1"; "hlt"] !! 0 = Some "jmp 2"
  /\ instructions_of
       ([Opcode "jmp" (Some (Py.Str "end")); Opcode "push" (Some (Py.Int 1))]
          ++ Label "end" :: [Opcode "hlt" None]) !! 2
     = Some ("hlt", None).
Proof.
  split; [vm_compute; reflexivity|].
  assert (H := C4_order_independent
    [Opcode "jmp" (Some (Py.Str "end")); Opcode "push" (Some (Py.Int 1))]
    [Opcode "hlt" None] "end" "jmp" ["jmp 2"; "push 1"; "hlt"] 0).
  destruct H as [H1 H2].
  - intros [H|[H|[]]]; discriminate H.
  - intros [H|[]]; discriminate H.
  - reflexivity.
  - vm_compute. reflexivity.
  - reflexivity.
  - split; [exact H1|]. exact (H2 "hlt" None [] eq_refl).
Defined.

(** ** Strings *)

Lemma length_append (a b : string) :
  String.length (a +:+ b) = String.length a + String.length b.
Proof.
  induction a as [|x a IH]; [done|].
  rewrite append_cons. simpl. by rewrite IH.
Qed.

Lemma span_append f s m r : span f s = (m, r) -> s = m +:+ r.
Proof.
  revert m r. induction s as [|c s IH]; intros m r; simpl.
  - by intros [= <- <-].
  - destruct (f c).
    + destruct (span f s) as [m' r'] eqn:E. intros [= <- <-].
      rewrite append_cons. f_equal. by apply IH.
    + by intros [= <- <-].
Qed.

Lemma span_length f s m r :
  span f s = (m, r) -> String.length s = String.length m + String.length r.
Proof. intros ->%span_append. apply length_append. Qed.

Lemma strip_prefix_append w s r : strip_prefix w s = Some r -> s = w +:+ r.
Proof.
  revert s. induction w as [|a w IH]; intros s; simpl.
  - by intros [= <-].
  - destruct s as [|b s]; [done|].
    destruct (Ascii.eqb_spec a b) as [<-|]; [|done].
    intros ->%IH. by rewrite append_cons.
Qed.

Lemma strip_prefix_app w r : strip_prefix w (w +:+ r) = Some r.
Proof.
  induction w as [|a w IH]; [done|].
  rewrite append_cons. simpl. by rewrite Ascii.eqb_refl.
Qed.

(** ** What the parsers consume *)

Lemma shrinking_nongrowing {A} (p : Parser A) : shrinking p -> nongrowing p.
Proof. intros H s v r Hp. specialize (H s v r Hp). lia. Qed.

Lemma nongrowing_star f : nongrowing (star f).
Proof.
  intros s v r [= H]. apply span_length in H. lia.
Qed.

Lemma shrinking_plus f : shrinking (plus f).
Proof.
  intros s v r. unfold plus.
  destruct (span f s) as [m r'] eqn:E. apply span_length in E.
  destruct m; [done|]. intros [= <- <-]. simpl in E. lia.
Qed.

Lemma shrinking_string_ w : w <> "" -> shrinking (string_ w).
Proof.
  intros Hw s v r. unfold string_.
  destruct (strip_prefix w s) as [r'|] eqn:E; [|done].
  intros [= <- <-]. apply strip_prefix_append in E as ->.
  rewrite length_append. destruct w; [done|]. simpl. lia.
Qed.

Lemma shrinking_regex_word w : w <> "" -> shrinking (regex_word w).
Proof.
  intros Hw s v r. unfold regex_word.
  destruct (strip_prefix w s) as [r'|] eqn:E; [|done].
  destruct (boundary _ _); [|done].
  intros [= <- <-]. apply strip_prefix_append in E as ->.
  rewrite length_append. destruct w; [done|]. simpl. lia.
Qed.

Lemma shrinking_skip {A B} (p : Parser A) (q : Parser B) :
  shrinking p -> nongrowing q -> shrinking (skip p q).
Proof.
  intros Hp Hq s v r. unfold skip.
  destruct (p s) as [[a r1]|] eqn:E1; [|done].
  destruct (q r1) as [[b r2]|] eqn:E2; [|done].
  intros [= <- <-]. specialize (Hp _ _ _ E1). specialize (Hq _ _ _ E2). lia.
Qed.

Lemma shrinking_seq {A B} (p : Parser A) (q : Parser B) :
  shrinking p -> nongrowing q -> shrinking (seq p q).
Proof.
  intros Hp Hq s v r. unfold seq.
  destruct (p s) as [[a r1]|] eqn:E1; [|done].
  destruct (q r1) as [[b r2]|] eqn:E2; [|done].
  intros [= <- <-]. specialize (Hp _ _ _ E1). specialize (Hq _ _ _ E2). lia.
Qed.

Lemma shrinking_seq_r {A B} (p : Parser A) (q : Parser B) :
  nongrowing p -> shrinking q -> shrinking (seq p q).
Proof.
  intros Hp Hq s v r. unfold seq.
  destruct (p s) as [[a r1]|] eqn:E1; [|done].
  destruct (q r1) as [[b r2]|] eqn:E2; [|done].
  intros [= <- <-]. specialize (Hp _ _ _ E1). specialize (Hq _ _ _ E2). lia.
Qed.

Lemma shrinking_map {A B} (f : A -> B) (p : Parser A) :
  shrinking p -> shrinking (map f p).
Proof.
  intros Hp s v r. unfold map.
  destruct (p s) as [[a r1]|] eqn:E1; [|done].
  intros [= <- <-]. by apply (Hp _ _ _ E1).
Qed.

Lemma shrinking_alt {A} (p q : Parser A) :
  shrinking p -> shrinking q -> shrinking (alt p q).
Proof.
  intros Hp Hq s v r. unfold alt.
  destruct (p s) as [[a r1]|] eqn:E1.
  - intros [= <- <-]. by apply (Hp _ _ _ E1).
  - apply Hq.
Qed.

Lemma shrinking_literal w : w <> "" -> shrinking (literal w).
Proof.
  intros Hw. apply shrinking_skip; [by apply shrinking_regex_word|].
  apply nongrowing_star.
Qed.

Lemma shrinking_IDENTIFIER : shrinking IDENTIFIER.
Proof.
  apply shrinking_map, shrinking_seq;
    [apply shrinking_plus | apply nongrowing_star].
Qed.

Lemma shrinking_LABEL : shrinking LABEL.
Proof.
  apply shrinking_map, shrinking_skip; [|apply nongrowing_star].
  apply shrinking_skip; [apply shrinking_IDENTIFIER|].
  by apply shrinking_nongrowing, shrinking_string_.
Qed.

Lemma shrinking_OPCODE : shrinking OPCODE.
Proof.
  unfold OPCODE, STACK_OP, ARITHMETIC_OP, BRANCH_OP, LOGICAL_OP, IO_OP,
    PUSH, POP, DUP, DOT, ADD, SUB, MUL, DIV, POW, MIN, MAX, JMP, JIF, CALL,
    RET, EQ, NE, LT, LE, GT, GE, STORE, LOAD, GSTORE, GLOAD, HLT,
    token, word, seq_, str_, result.
  apply shrinking_map, shrinking_skip; [|apply nongrowing_star].
  repeat apply shrinking_alt; repeat apply shrinking_map;
    repeat apply shrinking_alt; repeat apply shrinking_map;
    try (apply shrinking_literal; discriminate).
  - apply shrinking_seq; [apply shrinking_literal; discriminate|].
    apply shrinking_nongrowing.
    unfold NUMBER, FLOAT, INTEGER, BOOLEAN, TRUE, FALSE, FORWARD_SLASH,
      desc, add, chr, result.
    repeat apply shrinking_alt; repeat apply shrinking_map;
      try (apply shrinking_literal; discriminate).
    + apply shrinking_seq_r; [apply nongrowing_star|].
      apply shrinking_map, shrinking_seq;
        [by apply shrinking_string_|].
      apply shrinking_nongrowing, shrinking_plus.
    + apply shrinking_plus.
    + apply shrinking_seq; [by apply shrinking_string_|].
      apply shrinking_nongrowing, shrinking_IDENTIFIER.
  - apply shrinking_seq;
      [|apply shrinking_nongrowing, shrinking_map, shrinking_IDENTIFIER].
    repeat apply shrinking_alt; apply shrinking_literal; discriminate.
  - apply shrinking_seq;
      [|apply shrinking_nongrowing, shrinking_map, shrinking_IDENTIFIER].
    repeat apply shrinking_alt; apply shrinking_map, shrinking_literal;
      discriminate.
Qed.

Lemma shrinking_statement : shrinking statement.
Proof. apply shrinking_alt; [apply shrinking_LABEL|apply shrinking_OPCODE]. Qed.

(** ** The loop of [many] *)

(** With a parser that consumes, the loop ends before the fuel does. *)
Lemma many_fuel_enough {A} (p : Parser A) :
  shrinking p ->
  forall fuel s, String.length s < fuel ->
  exists vs r, many_fuel fuel p s = Some (vs, r).
Proof.
  intros Hp fuel. induction fuel as [|fuel IH]; intros s Hs; [lia|].
  simpl. destruct (p s) as [[v r]|] eqn:E; [|by eexists _, _].
  specialize (Hp _ _ _ E).
  destruct (IH r) as (vs & r' & ->); [lia|]. by eexists _, _.
Qed.

(** More fuel does not change the result. *)
Lemma many_fuel_more {A} (p : Parser A) fuel fuel' s res :
  many_fuel fuel p s = Some res -> fuel <= fuel' ->
  many_fuel fuel' p s = Some res.
Proof.
  revert fuel' s res. induction fuel as [|fuel IH]; intros fuel' s res;
    [done|].
  intros H Hle. destruct fuel' as [|fuel']; [lia|]. simpl in *.
  destruct (p s) as [[v r]|]; [|done].
  destruct (many_fuel fuel p r) as [[vs r']|] eqn:E; [|done].
  rewrite (IH fuel' r (vs, r')); [done|done|lia].
Qed.

Lemma many_fuel_stable {A} (p : Parser A) :
  shrinking p ->
  forall fuel s, String.length s < fuel ->
  many_fuel fuel p s = many p s.
Proof.
  intros Hp fuel s Hs. unfold many.
  destruct (many_fuel_enough p Hp (S (String.length s)) s) as (vs & r & E);
    [lia|].
  rewrite E. eapply many_fuel_more; [exact E|lia].
Qed.

Lemma many_fuel_statements fuel s ns r :
  many_fuel fuel statement s = Some (ns, r) -> statements s ns r.
Proof.
  revert s ns r. induction fuel as [|fuel IH]; intros s ns r; [done|].
  simpl. destruct (statement s) as [[n r1]|] eqn:E.
  - destruct (many_fuel fuel statement r1) as [[ns' r']|] eqn:E'; [|done].
    intros [= <- <-]. econstructor; [done|by apply IH].
  - intros [= <- <-]. by constructor.
Qed.

Lemma statements_unique s ns r ns' r' :
  statements s ns r -> statements s ns' r' -> ns = ns' /\ r = r'.
Proof.
  intros H. revert ns' r'.
  induction H as [s Hs|s n r1 ns r Hn _ IH]; intros ns' r' H'.
  - destruct H' as [s _|s n r1 ns r Hn _]; [done|congruence].
  - destruct H' as [s Hs|s n' r1' ns' r' Hn' H']; [congruence|].
    assert (n' = n /\ r1' = r1) as [-> ->] by (split; congruence).
    destruct (IH _ _ H') as [-> ->]. done.
Qed.

Lemma statements_stops s ns r : statements s ns r -> statement r = None.
Proof. induction 1; done. Qed.

(** The parser of the program never fails and never runs out of fuel. *)
Lemma program_total source_code :
  exists ast rest,
    program source_code = Some (ast, rest)
    /\ statements (snd (span is_space source_code)) ast rest.
Proof.
  unfold program, then_, WHITESPACE, star.
  destruct (span is_space source_code) as [m r0] eqn:E. simpl.
  destruct (many_fuel_enough statement shrinking_statement
              (S (String.length r0)) r0) as (ast & rest & Hm); [lia|].
  exists ast, rest. unfold many. rewrite Hm.
  split; [done|]. by eapply many_fuel_statements.
Qed.

Lemma parse_source_program source_code ast rest :
  program source_code = Some (ast, rest) ->
  parse_source source_code = if decide (rest = "") then Some ast else None.
Proof.
  intros H. unfold parse_source, parse, skip. rewrite H.
  by destruct rest.
Qed.

(** ** The shape of the nodes *)

Lemma yields_alt {A} (p q : Parser A) P :
  yields p P -> yields q P -> yields (alt p q) P.
Proof.
  intros Hp Hq s v r. unfold alt.
  destruct (p s) as [[a r1]|] eqn:E1.
  - intros [= <- <-]. by apply (Hp _ _ _ E1).
  - apply Hq.
Qed.

Lemma yields_map {A B} (f : A -> B) (p : Parser A) P :
  yields p (fun a => P (f a)) -> yields (map f p) P.
Proof.
  intros Hp s v r. unfold map.
  destruct (p s) as [[a r1]|] eqn:E1; [|done].
  intros [= <- <-]. by apply (Hp _ _ _ E1).
Qed.

Lemma yields_skip {A B} (p : Parser A) (q : Parser B) P :
  yields p P -> yields (skip p q) P.
Proof.
  intros Hp s v r. unfold skip.
  destruct (p s) as [[a r1]|] eqn:E1; [|done].
  destruct (q r1) as [[b r2]|]; [|done].
  intros [= <- <-]. by apply (Hp _ _ _ E1).
Qed.

Lemma yields_seq {A B} (p : Parser A) (q : Parser B) P Q :
  yields p P -> yields q Q ->
  yields (seq p q) (fun ab => P (fst ab) /\ Q (snd ab)).
Proof.
  intros Hp Hq s v r. unfold seq.
  destruct (p s) as [[a r1]|] eqn:E1; [|done].
  destruct (q r1) as [[b r2]|] eqn:E2; [|done].
  intros [= <- <-]. split; [by apply (Hp _ _ _ E1)|by apply (Hq _ _ _ E2)].
Qed.

Lemma yields_weaken {A} (p : Parser A) (P Q : A -> Prop) :
  yields p P -> (forall a, P a -> Q a) -> yields p Q.
Proof. intros Hp HPQ s v r H. by eapply HPQ, Hp. Qed.

Lemma yields_True {A} (p : Parser A) : yields p (fun _ => True).
Proof. by intros s v r _. Qed.

Lemma yields_literal w : yields (literal w) (fun v => v = w).
Proof.
  apply yields_skip. intros s v r. unfold regex_word.
  destruct (strip_prefix w s); [|done].
  destruct (boundary _ _); [|done]. by intros [= <- <-].
Qed.

Lemma wf_PUSH : yields PUSH wf_parsed.
Proof.
  apply yields_map.
  eapply yields_weaken;
    [apply yields_seq; [apply yields_literal|apply yields_True]|].
  intros [w a] [-> _]. simpl. discriminate.
Qed.

Lemma wf_seq_str (p q : Parser string) : yields (seq_ p (str_ q)) wf_parsed.
Proof.
  apply yields_map.
  eapply yields_weaken;
    [apply yields_seq;
       [apply yields_True
       |apply (yields_map Py.Str q (fun v => exists name, v = Py.Str name))]|].
  - intros s v r _. by eexists.
  - intros [w a] [_ H]. simpl. by intros _.
Qed.

Lemma wf_word (p : Parser string) : yields (word p) wf_parsed.
Proof. apply yields_map. by intros s v r _. Qed.

Lemma wf_statement : yields statement wf_node.
Proof.
  apply yields_alt.
  - apply yields_map. by intros s v r _.
  - apply yields_map.
    apply (yields_weaken _ wf_parsed); [|by intros [w|w a]].
    apply yields_skip.
    repeat apply yields_alt;
      first [apply wf_PUSH | apply wf_word | apply wf_seq_str].
Qed.

Lemma statements_yields (P : node -> Prop) s ns r :
  yields statement P -> statements s ns r -> Forall P ns.
Proof.
  intros HP. induction 1 as [|s n r1 ns r Hn _ IH]; constructor;
    [by eapply HP|done].
Qed.

Lemma parse_source_statements source_code ast :
  parse_source source_code = Some ast ->
  statements (snd (span is_space source_code)) ast "".
Proof.
  destruct (program_total source_code) as (ast' & rest & Hp & Hst).
  rewrite (parse_source_program _ _ _ Hp).
  case_decide; [|done]. intros [= <-]. by subst.
Qed.

Lemma wf_parse_source source_code ast :
  parse_source source_code = Some ast -> Forall wf_node ast.
Proof.
  intros H%parse_source_statements.
  eapply statements_yields; [apply wf_statement|exact H].
Qed.

(** ** Undefined labels *)

Lemma generate_inl_undefined ast e :
  Forall wf_node ast ->
  generate (label_table ast) ast = inl e ->
  exists opcode name,
    e = UndefinedLabel name
    /\ In (Opcode opcode (Some (Py.Str name))) ast
    /\ is_branch opcode = true
    /\ ¬ declared name ast.
Proof.
  intros Hwf. rewrite generate_render_all.
  intros (o & x & Hin & Hr)%render_all_inl.
  apply render_inl in Hr as (a & -> & Hb & Hl & ->).
  apply in_instructions_of in Hin.
  rewrite Forall_forall in Hwf.
  destruct (Hwf _ (proj2 (list_elem_of_In _ _) Hin) Hb) as [name ->].
  exists o, name. simpl in *. split; [done|]. split; [done|]. split; [done|].
  intros Hd%label_table_declared. rewrite Hl in Hd. by destruct Hd.
Qed.

Lemma generate_undefined_inl ast opcode name :
  In (Opcode opcode (Some (Py.Str name))) ast ->
  is_branch opcode = true ->
  ¬ declared name ast ->
  exists e, generate (label_table ast) ast = inl e.
Proof.
  intros Hin Hb Hd. rewrite generate_render_all.
  eapply render_all_fails; [by apply in_instructions_of|].
  apply render_inl. exists (Py.Str name).
  split; [done|]. split; [done|]. split; [|done].
  simpl. by apply label_table_undeclared.
Qed.

(** C5: for a source text the parser accepts (parsing does not look at
    the table, and the first pass has no way to fail), generation ends
    with the undefined-label exception exactly when some branch
    instruction names a label that no label node of the program declares;
    the exception carries such a name, it is the only one generation
    raises, and the run then ends with it and leaves the files as they
    were: the output file is not written. *)
Theorem C5_undefined_label (cli : cli_arguments) (fs : gmap string string)
    (source_code : string) (ast : list node) :
  fs !! file cli = Some source_code ->
  parse_source source_code = Some ast ->
  ((exists name, generate (label_table ast) ast = inl (UndefinedLabel name))
   <-> (exists opcode name,
          In (Opcode opcode (Some (Py.Str name))) ast
          /\ is_branch opcode = true
          /\ ¬ declared name ast))
  /\ (forall e,
        generate (label_table ast) ast = inl e ->
        run cli fs = (Some e, fs)
        /\ exists opcode name,
             e = UndefinedLabel name
             /\ In (Opcode opcode (Some (Py.Str name))) ast
             /\ is_branch opcode = true
             /\ ¬ declared name ast)
  /\ (forall instructions,
        generate (label_table ast) ast = inr instructions ->
        run cli fs = (None, <[output cli := emit instructions]> fs)).
Proof.
  intros Hfile Hparse. pose proof (wf_parse_source _ _ Hparse) as Hwf.
  split; [split|split].
  - intros [name Hg].
    destruct (generate_inl_undefined _ _ Hwf Hg) as (o & n & _ & H).
    by exists o, n.
  - intros (o & n & Hin & Hb & Hd).
    destruct (generate_undefined_inl _ _ _ Hin Hb Hd) as [e He].
    destruct (generate_inl_undefined _ _ Hwf He) as (_ & n' & -> & _).
    by exists n'.
  - intros e He. split.
    + unfold run. by rewrite Hfile, Hparse, He.
    + by apply generate_inl_undefined.
  - intros instructions Hg. unfold run. by rewrite Hfile, Hparse, Hg.
Qed.

(** The source [call missing] is parsed, its table is empty, and the run
    ends with the exception for [missing], the files unchanged. *)
Lemma C5_undefined_label_witness :
  parse_source "call missing" = Some [Opcode "call" (Some (Py.Str "missing"))]
  /\ label_table [Opcode "call" (Some (Py.Str "missing"))] = ∅
  /\ run {| file := "a.fasm"; output := "a.cfg" |}
         {["a.fasm" := "call missing"]}
     = (Some (UndefinedLabel "missing"), {["a.fasm" := "call missing"]}).
Proof.
  split; [vm_compute; reflexivity|]. split; [reflexivity|].
  apply (C5_undefined_label
           {| file := "a.fasm"; output := "a.cfg" |}
           {["a.fasm" := "call missing"]} "call missing"
           [Opcode "call" (Some (Py.Str "missing"))]).
  - reflexivity.
  - vm_compute. reflexivity.
  - vm_compute. reflexivity.
Defined.

(** ** One directive for each instruction *)

(** C6: for a source text the parser accepts in which every label a
    branch names is declared, the run ends without exception and the
    output file is the directives of the instructions one after the
    other: as many as there are opcode nodes, in their order, the
    directive of slot [i], counted from 0, being [alias __svm.i] followed
    by the rendering, in quotes, of the opcode node number [i]; label
    nodes have no slot. When a branch names a label that is not declared
    there is no output at all: the run ends with the exception for an
    undefined label and no file is written. *)
Theorem C6_one_directive_per_instruction (cli : cli_arguments)
    (fs : gmap string string) (source_code : string) (ast : list node) :
  fs !! file cli = Some source_code ->
  parse_source source_code = Some ast ->
  ((forall opcode name,
      In (Opcode opcode (Some (Py.Str name))) ast ->
      is_branch opcode = true -> declared name ast) ->
   exists instructions,
     run cli fs
     = (None,
        <[output cli := concat_strings (imap directive instructions)]> fs)
     /\ assemble source_code
        = inr (concat_strings (imap directive instructions))
     /\ length instructions = instruction_count ast
     /\ length (imap directive instructions) = instruction_count ast
     /\ forall i opcode arg,
          instructions_of ast !! i = Some (opcode, arg) ->
          exists text,
            render (label_table ast) opcode arg = inr text
            /\ instructions !! i = Some text
            /\ imap directive instructions !! i
               = Some ("alias __svm." +:+ pretty i +:+ " " +:+ quote
                         +:+ text +:+ quote +:+ newline))
  /\ ((exists opcode name,
         In (Opcode opcode (Some (Py.Str name))) ast
         /\ is_branch opcode = true /\ ~ declared name ast) ->
      exists name,
        run cli fs = (Some (UndefinedLabel name), fs)
        /\ assemble source_code = inl (UndefinedLabel name)).
Proof.
  intros Hfile Hparse. pose proof (wf_parse_source _ _ Hparse) as Hwf.
  unfold run, assemble. rewrite Hfile, Hparse.
  destruct (generate (label_table ast) ast) as [e|instructions] eqn:Hg.
  - destruct (generate_inl_undefined _ _ Hwf Hg)
      as (o & name & -> & Hin & Hb & Hd).
    split; [intros Hall; destruct Hd; by apply (Hall o)|].
    intros _. by exists name.
  - split.
    + intros _. exists instructions. rewrite emit_directives.
      split; [done|]. split; [done|]. split; [by eapply generate_length|].
      split; [rewrite length_imap; by eapply generate_length|].
      intros i opcode arg Hi.
      destruct (generate_lookup _ _ _ _ _ _ Hg Hi) as (text & Hr & Ht).
      exists text. split; [done|]. split; [done|].
      rewrite list_lookup_imap, Ht. reflexivity.
    + intros (o & name & Hin & Hb & Hd).
      destruct (generate_undefined_inl _ _ _ Hin Hb Hd) as [e He].
      congruence.
Qed.

Lemma C6_one_directive_per_instruction_witness :
  exists instructions,
    run {| file := "a.fasm"; output := "a.cfg" |} countdown_files
    = (None,
       <["a.cfg" := concat_strings (imap directive instructions)]>
         countdown_files)
    /\ assemble "start: push 1 push 2 add jmp start"
       = inr (concat_strings (imap directive instructions))
    /\ length instructions = instruction_count countdown
    /\ length (imap directive instructions) = instruction_count countdown
    /\ forall i opcode arg,
         instructions_of countdown !! i = Some (opcode, arg) ->
         exists text,
           render (label_table countdown) opcode arg = inr text
           /\ instructions !! i = Some text
           /\ imap directive instructions !! i
              = Some ("alias __svm." +:+ pretty i +:+ " " +:+ quote
                        +:+ text +:+ quote +:+ newline).
Proof.
  apply (C6_one_directive_per_instruction
           {| file := "a.fasm"; output := "a.cfg" |} countdown_files
           "start: push 1 push 2 add jmp start" countdown).
  - reflexivity.
  - vm_compute. reflexivity.
  - intros opcode name [H|[H|[H|[H|[H|[]]]]]] _; try discriminate H.
    injection H as _ <-. left. reflexivity.
Defined.

(** ** Parsing as a whole *)

(** C7: on every source text the parser of the program ends, and with any
    larger fuel on the same result: the statements recognised one after
    the other after the leading whitespace, up to a rest where no
    statement is recognised. When the rest is empty the parse is this node
    sequence; when anything is left, the parse is an error, whatever was
    recognised before is dropped, and the run ends with that error, no
    pass after it having run and no file written. *)
Theorem C7_all_or_nothing (source_code : string) :
  exists ast rest,
    program source_code = Some (ast, rest)
    /\ (forall fuel,
          String.length source_code < fuel ->
          many_fuel fuel statement (snd (span is_space source_code))
          = Some (ast, rest))
    /\ statements (snd (span is_space source_code)) ast rest
    /\ statement rest = None
    /\ (rest = "" -> parse_source source_code = Some ast)
    /\ (rest <> "" ->
        parse_source source_code = None
        /\ assemble source_code = inl ParseError
        /\ forall cli fs,
             fs !! file cli = Some source_code ->
             run cli fs = (Some ParseError, fs)).
Proof.
  destruct (program_total source_code) as (ast & rest & Hp & Hst).
  exists ast, rest. split; [done|].
  pose proof (parse_source_program _ _ _ Hp) as Hparse.
  split; [|split; [done|split; [by eapply statements_stops|split]]].
  - intros fuel Hfuel.
    destruct (span is_space source_code) as [m r0] eqn:E. simpl.
    rewrite many_fuel_stable; [|apply shrinking_statement|].
    + unfold program, then_, WHITESPACE, star in Hp. by rewrite E in Hp.
    + apply span_length in E. lia.
  - intros ->. by rewrite Hparse.
  - intros Hne. rewrite decide_False in Hparse by done.
    split; [done|]. split; [unfold assemble; by rewrite Hparse|].
    intros cli fs Hfile. unfold run. by rewrite Hfile, Hparse.
Qed.

(** ** Greedy matches *)

Lemma span_app_stop f m r :
  all_chars f m = true -> stops f r = true -> span f (m +:+ r) = (m, r).
Proof.
  intros Hm Hr. induction m as [|c m IH].
  - rewrite append_nil_l. destruct r as [|c r]; [done|].
    simpl in *. by destruct (f c).
  - rewrite append_cons. simpl in *.
    apply andb_prop in Hm as [-> Hm]. by rewrite IH.
Qed.

Lemma span_all f m : all_chars f m = true -> span f m = (m, "").
Proof.
  intros Hm. rewrite <- (append_empty_r m) at 1. by apply span_app_stop.
Qed.

Lemma span_stop f r : stops f r = true -> span f r = ("", r).
Proof. intros Hr. by apply (span_app_stop f "" r). Qed.

Lemma span_weaken (f g : ascii -> bool) s a r1 b r2 :
  (forall c, f c = true -> g c = true) ->
  span f s = (a, r1) -> span g r1 = (b, r2) -> span g s = (a +:+ b, r2).
Proof.
  intros Hfg. revert a r1. induction s as [|c s IH]; intros a r1; simpl.
  - intros [= <- <-]. simpl. by intros [= <- <-].
  - destruct (f c) eqn:Ef.
    + destruct (span f s) as [a' r1'] eqn:E. intros [= <- <-] Hg.
      rewrite (Hfg _ Ef), (IH _ _ eq_refl Hg). by rewrite append_cons.
    + by intros [= <- <-].
Qed.

Lemma ident_start_char c : is_ident_start c = true -> is_ident_char c = true.
Proof. unfold is_ident_char. by intros ->. Qed.

Lemma ident_char_word c : is_ident_char c = true -> is_word c = true.
Proof. unfold is_word. by intros ->. Qed.

Lemma ident_start_no_space c : is_ident_start c = true -> is_space c = false.
Proof. destruct c as [[] [] [] [] [] [] [] []]; vm_compute; congruence. Qed.

Lemma digit_no_space c : is_digit c = true -> is_space c = false.
Proof. destruct c as [[] [] [] [] [] [] [] []]; vm_compute; congruence. Qed.

(** The match of the pattern of identifiers: the longest run of
    identifier characters, when the first one is not a digit. *)
Lemma IDENTIFIER_spec s :
  IDENTIFIER s
  = if negb (stops is_ident_start s) then Some (span is_ident_char s)
    else None.
Proof.
  unfold IDENTIFIER, desc, add, map, seq, plus, star.
  destruct (span is_ident_start s) as [a r1] eqn:E1.
  destruct (span is_ident_char r1) as [b r2] eqn:E2.
  rewrite (span_weaken _ _ _ _ _ _ _ ident_start_char E1 E2).
  destruct s as [|c s]; simpl in *.
  - by simplify_eq.
  - destruct (is_ident_start c); simpl.
    + destruct (span is_ident_start s). simplify_eq. by rewrite E2.
    + by simplify_eq.
Qed.

Lemma IDENTIFIER_app name rest :
  is_identifier name = true -> stops is_ident_char rest = true ->
  IDENTIFIER (name +:+ rest) = Some (name, rest).
Proof.
  intros Hn Hr. rewrite IDENTIFIER_spec.
  destruct name as [|c name]; [done|]. simpl in Hn.
  apply andb_prop in Hn as [Hc Hn].
  rewrite append_cons. cbn [stops]. rewrite Hc. cbn [negb].
  rewrite <- append_cons. rewrite span_app_stop; [done| |done].
  simpl. by rewrite (ident_start_char _ Hc).
Qed.

Lemma IDENTIFIER_all name :
  is_identifier name = true -> IDENTIFIER name = Some (name, "").
Proof.
  intros Hn. rewrite <- (append_empty_r name) at 1.
  by apply IDENTIFIER_app.
Qed.

(** One round of the loop of [many]. *)
Lemma many_unfold {A} (p : Parser A) s :
  shrinking p ->
  many p s = match p s with
             | None => Some ([], s)
             | Some (v, r) =>
                 match many p r with
                 | Some (vs, r') => Some (v :: vs, r')
                 | None => None
                 end
             end.
Proof.
  intros Hp. unfold many at 1. simpl.
  destruct (p s) as [[v r]|] eqn:E; [|done].
  rewrite many_fuel_stable; [done|done|]. by apply (Hp _ _ _ E).
Qed.

(** A text that is one statement. *)
Lemma parse_source_one s n :
  stops is_space s = true -> statement s = Some (n, "") ->
  parse_source s = Some [n].
Proof.
  intros Hs Hn.
  unfold parse_source, parse, skip, program, then_, WHITESPACE, star.
  rewrite (span_stop _ _ Hs).
  rewrite many_unfold by apply shrinking_statement. rewrite Hn.
  rewrite many_unfold by apply shrinking_statement. reflexivity.
Qed.

(** ** Keywords *)

Lemma alt_None {A} (p q : Parser A) s : p s = None -> alt p q s = q s.
Proof. unfold alt. by intros ->. Qed.

Lemma alt_Some {A} (p q : Parser A) s res :
  p s = Some res -> alt p q s = Some res.
Proof. unfold alt. by intros ->. Qed.

Lemma regex_word_inside word c rest :
  word_char (last_char word) = true -> is_word c = true ->
  regex_word word (word +:+ String c rest) = None.
Proof.
  intros Hw Hc. unfold regex_word. rewrite strip_prefix_app.
  unfold boundary. simpl. by rewrite Hw, Hc.
Qed.

Lemma regex_word_app word r0 :
  word_char (last_char word) = true -> word_char (first_char r0) = false ->
  regex_word word (word +:+ r0) = Some (word, r0).
Proof.
  intros Hw Hr. unfold regex_word. rewrite strip_prefix_app.
  unfold boundary. by rewrite Hw, Hr.
Qed.

Lemma literal_app word r0 :
  word_char (last_char word) = true -> word_char (first_char r0) = false ->
  literal word (word +:+ r0) = Some (word, snd (span is_space r0)).
Proof.
  intros Hw Hr. unfold literal, desc, token, skip.
  rewrite regex_word_app by done. unfold WHITESPACE, star.
  by destruct (span is_space r0).
Qed.

Lemma literal_spec word s v r :
  word_char (last_char word) = true ->
  literal word s = Some (v, r) ->
  exists r0,
    s = word +:+ r0 /\ word_char (first_char r0) = false
    /\ v = word /\ r = snd (span is_space r0).
Proof.
  intros Hw. unfold literal, desc, token, skip, regex_word.
  destruct (strip_prefix word s) as [r0|] eqn:E; [|done].
  unfold boundary. rewrite Hw.
  destruct (word_char (first_char r0)) eqn:Hr; [done|]. simpl.
  unfold WHITESPACE, star. destruct (span is_space r0) as [m r'] eqn:Es.
  intros [= <- <-]. exists r0. apply strip_prefix_append in E.
  rewrite Es. repeat split; done.
Qed.

Lemma keywords_end word :
  In word keywords -> word_char (last_char word) = true.
Proof.
  unfold keywords. intros H.
  repeat (destruct H as [<-|H]; [reflexivity|]). destruct H.
Qed.

Lemma identifier_stops_space name :
  is_identifier name = true -> stops is_space name = true.
Proof.
  destruct name as [|c name]; [done|]. simpl.
  intros [Hc _]%andb_prop. by rewrite (ident_start_no_space _ Hc).
Qed.

(** [store] and a variable, whatever the variable starts with. *)
Lemma statement_store name :
  is_identifier name = true ->
  statement ("store " +:+ name) = Some (Opcode "store_l" (Some (Py.Str name)), "").
Proof.
  intros Hn.
  assert (Hws : span is_space (String " " name) = (" ", name)).
  { apply (span_app_stop is_space " " name); [done|].
    by apply identifier_stops_space. }
  assert (Hstore : STORE ("store " +:+ name) = Some ("store_l", name)).
  { unfold STORE, result, map.
    change ("store " +:+ name) with ("store" +:+ String " " name).
    rewrite literal_app by done. by rewrite Hws. }
  unfold statement. rewrite alt_None.
  2:{ unfold LABEL, map, token, skip. rewrite IDENTIFIER_spec. reflexivity. }
  unfold OPCODE, map, token, skip.
  rewrite (alt_Some _ _ _ (Pair "store_l" (Py.Str name), "")); [done|].
  rewrite alt_None.
  2:{ repeat (rewrite alt_None; [|reflexivity]). reflexivity. }
  unfold IO_OP, seq_, map, seq.
  rewrite (alt_Some _ _ _ ("store_l", name)).
  2:{ by repeat apply alt_Some. }
  unfold str_, map. by rewrite IDENTIFIER_all.
Qed.

(** C8: a keyword followed at once by a character of an identifier is
    not that keyword; when [literal] succeeds the word is there, is the
    result, and is followed by the end of the text or by a character that
    is not a word character. So [pop] is not recognised at the start of
    [popular], and [store] with a variable, [popular] or any other
    identifier, has that identifier as its operand. *)
Theorem C8_keyword_boundary (word : string) (c : ascii) (rest : string) :
  In word keywords ->
  is_ident_char c = true ->
  literal word (word +:+ String c rest) = None
  /\ (forall s v r,
        literal word s = Some (v, r) ->
        exists r0,
          s = word +:+ r0 /\ word_char (first_char r0) = false
          /\ v = word /\ r = snd (span is_space r0))
  /\ (forall name,
        is_identifier name = true ->
        parse_source ("store " +:+ name)
        = Some [Opcode "store_l" (Some (Py.Str name))])
  /\ parse_source "store popular"
     = Some [Opcode "store_l" (Some (Py.Str "popular"))]
  /\ statement "popular" = None.
Proof.
  intros Hw%keywords_end Hc%ident_char_word.
  split; [|split; [|split; [|split]]].
  - unfold literal, desc, token, skip. by rewrite regex_word_inside.
  - intros s v r. by apply literal_spec.
  - intros name Hn. apply parse_source_one; [done|].
    by apply statement_store.
  - vm_compute. reflexivity.
  - vm_compute. reflexivity.
Qed.

Lemma C8_keyword_boundary_witness : POP "popular" = None.
Proof.
  apply (C8_keyword_boundary "pop" "u" "lar").
  - unfold keywords. simpl. tauto.
  - reflexivity.
Defined.

(** ** Labels *)

Lemma statement_label name rest :
  is_identifier name = true ->
  statement (name +:+ ":" +:+ rest)
  = Some (Label name, snd (span is_space rest)).
Proof.
  intros Hn. unfold statement. apply alt_Some.
  unfold LABEL, map, token, skip.
  rewrite IDENTIFIER_app by done.
  change (COLON (":" +:+ rest)) with (Some (":", rest)).
  unfold WHITESPACE, star. by destruct (span is_space rest).
Qed.

(** C10: at the start of a statement an identifier followed at once by a
    colon is a label node of that name, whatever the identifier; a text
    that is only that has a label node and no instruction, and its output
    is empty. For [add:] the opcode alternative alone would take [add] and
    leave the colon, but it is not tried: the parse is the label [add]. *)
Theorem C10_label_first (name rest : string) :
  is_identifier name = true ->
  statement (name +:+ ":" +:+ rest)
  = Some (Label name, snd (span is_space rest))
  /\ parse_source (name +:+ ":") = Some [Label name]
  /\ instruction_count [Label name] = 0
  /\ assemble (name +:+ ":") = inr ""
  /\ OPCODE "add:" = Some (Opcode "add" None, ":")
  /\ parse_source "add:" = Some [Label "add"].
Proof.
  intros Hn.
  assert (Hp : parse_source (name +:+ ":") = Some [Label name]).
  { apply parse_source_one.
    - destruct name as [|c name]; [done|]. rewrite append_cons.
      apply (identifier_stops_space (String c name) Hn).
    - by apply (statement_label name ""). }
  split; [by apply statement_label|]. split; [done|]. split; [done|].
  split; [|split; vm_compute; reflexivity].
  unfold assemble. by rewrite Hp.
Qed.

Lemma C10_label_first_witness :
  statement "add: pop" = Some (Label "add", "pop").
Proof.
  apply (C10_label_first "add" " pop"). reflexivity.
Defined.

(** ** The operands of [push] *)

(** [push] and its operand: what the statement is when the operand parser
    takes the whole rest of the text. *)
Lemma statement_push operand v :
  stops is_space operand = true ->
  alt (alt NUMBER BOOLEAN) (str_ (add FORWARD_SLASH IDENTIFIER)) operand
  = Some (v, "") ->
  statement ("push " +:+ operand) = Some (Opcode "push" (Some v), "").
Proof.
  intros Hs Hv.
  assert (Hws : span is_space (String " " operand) = (" ", operand)).
  { by apply (span_app_stop is_space " " operand). }
  unfold statement. rewrite alt_None.
  2:{ unfold LABEL, map, token, skip. rewrite IDENTIFIER_spec. reflexivity. }
  unfold OPCODE, map, token, skip.
  rewrite (alt_Some _ _ _ (Pair "push" v, "")); [done|].
  do 4 apply alt_Some. unfold STACK_OP. do 3 apply alt_Some.
  unfold PUSH, seq_, map, seq.
  change ("push " +:+ operand) with ("push" +:+ String " " operand).
  rewrite literal_app by done. rewrite Hws. simpl. by rewrite Hv.
Qed.

Lemma generate_push labels v :
  generate labels [Opcode "push" (Some v)] = inr ["push " +:+ Py.str v].
Proof. reflexivity. Qed.

Lemma assemble_push operand v :
  stops is_space operand = true ->
  alt (alt NUMBER BOOLEAN) (str_ (add FORWARD_SLASH IDENTIFIER)) operand
  = Some (v, "") ->
  parse_source ("push " +:+ operand) = Some [Opcode "push" (Some v)]
  /\ assemble ("push " +:+ operand)
     = inr (directive 0 ("push " +:+ Py.str v)).
Proof.
  intros Hs Hv.
  assert (Hp : parse_source ("push " +:+ operand)
               = Some [Opcode "push" (Some v)]).
  { apply parse_source_one; [done|]. by apply statement_push. }
  split; [done|]. unfold assemble. rewrite Hp, generate_push. reflexivity.
Qed.

Lemma push_string name :
  is_identifier name = true ->
  alt (alt NUMBER BOOLEAN) (str_ (add FORWARD_SLASH IDENTIFIER))
      ("/" +:+ name)
  = Some (Py.Str ("/" +:+ name), "").
Proof.
  intros Hn. rewrite alt_None by reflexivity.
  unfold str_, add, map, seq.
  change (FORWARD_SLASH ("/" +:+ name)) with (Some ("/", name)).
  cbv beta iota. by rewrite IDENTIFIER_all.
Qed.

(** C2 (amended): the operand of [push /name] is the text [/name], the
    marker included, and the instruction is rendered [push /name]. *)
Theorem C2_marker_kept (name : string) :
  is_identifier name = true ->
  parse_source ("push /" +:+ name)
  = Some [Opcode "push" (Some (Py.Str ("/" +:+ name)))]
  /\ generate (label_table [Opcode "push" (Some (Py.Str ("/" +:+ name)))])
              [Opcode "push" (Some (Py.Str ("/" +:+ name)))]
     = inr ["push /" +:+ name]
  /\ assemble ("push /" +:+ name) = inr (directive 0 ("push /" +:+ name)).
Proof.
  intros Hn.
  destruct (assemble_push ("/" +:+ name) (Py.Str ("/" +:+ name)))
    as [Hp Ha]; [done|by apply push_string|].
  split; [exact Hp|]. split; [reflexivity|exact Ha].
Qed.

Lemma C2_marker_kept_witness :
  assemble "push /hello" = inr (directive 0 "push /hello").
Proof.
  apply (C2_marker_kept "hello"). reflexivity.
Defined.

(** C2 as stated fails on [push /hello]: the rendered instruction is
    [push /hello], with the marker, and not [push hello]. *)
Lemma C2_counterexample :
  parse_source "push /hello" = Some [Opcode "push" (Some (Py.Str "/hello"))]
  /\ generate (label_table [Opcode "push" (Some (Py.Str "/hello"))])
              [Opcode "push" (Some (Py.Str "/hello"))]
     = inr ["push /hello"]
  /\ assemble "push /hello" = inr (directive 0 "push /hello")
  /\ "push /hello" <> "push hello"
  /\ assemble "push /hello" <> inr (directive 0 "push hello").
Proof.
  split; [vm_compute; reflexivity|]. split; [vm_compute; reflexivity|].
  split; [vm_compute; reflexivity|]. split; [discriminate|].
  vm_compute. discriminate.
Qed.

Lemma digits_stops_space ds : is_digits ds = true -> stops is_space ds = true.
Proof.
  destruct ds as [|c ds]; [done|]. simpl.
  intros [Hc _]%andb_prop. by rewrite (digit_no_space _ Hc).
Qed.

Lemma digits_all ds : is_digits ds = true -> all_chars is_digit ds = true.
Proof. by destruct ds. Qed.

Lemma plus_digits ds :
  is_digits ds = true -> plus is_digit ds = Some (ds, "").
Proof.
  intros Hd. unfold plus. rewrite span_all by by apply digits_all.
  by destruct ds.
Qed.

Lemma push_integer ds :
  is_digits ds = true ->
  alt (alt NUMBER BOOLEAN) (str_ (add FORWARD_SLASH IDENTIFIER)) ds
  = Some (Py.Int (Py.int ds), "").
Proof.
  intros Hd. do 2 apply alt_Some. unfold NUMBER. rewrite alt_None.
  - unfold INTEGER, desc, map. by rewrite plus_digits.
  - unfold FLOAT, desc, map, add, map, seq, star.
    by rewrite span_all by by apply digits_all.
Qed.

Lemma push_float ip fp :
  all_chars is_digit ip = true -> is_digits fp = true ->
  alt (alt NUMBER BOOLEAN) (str_ (add FORWARD_SLASH IDENTIFIER))
      (ip +:+ "." +:+ fp)
  = Some (Py.Float (Py.float_ (ip +:+ "." +:+ fp)), "").
Proof.
  intros Hi Hf. do 3 apply alt_Some.
  unfold FLOAT, desc, map, add, map, seq, star.
  rewrite span_app_stop by done.
  change (chr "." ("." +:+ fp)) with (Some (".", fp)).
  cbv beta iota. by rewrite plus_digits.
Qed.

Lemma float_stops_space ip fp :
  all_chars is_digit ip = true -> stops is_space (ip +:+ "." +:+ fp) = true.
Proof.
  destruct ip as [|c ip]; [done|]. rewrite append_cons. simpl.
  intros [Hc _]%andb_prop. by rewrite (digit_no_space _ Hc).
Qed.

(** C9: the operand of [push] and digits is the integer the digits
    denote, and the instruction is rendered with the decimal writing of
    that integer, so that a zero in front changes nothing; the operand of
    [push] and digits with a fraction is the float nearest to the decimal,
    and the instruction is rendered with the [repr] of that float.
    [push 007] is rendered [push 7], and [push .5] is rendered
    [push 0.5]. *)
Theorem C9_numeric_normalised (ds ip fp : string) :
  is_digits ds = true ->
  all_chars is_digit ip = true ->
  is_digits fp = true ->
  parse_source ("push " +:+ ds) = Some [Opcode "push" (Some (Py.Int (Py.int ds)))]
  /\ assemble ("push " +:+ ds)
     = inr (directive 0 ("push " +:+ pretty (Py.int ds)))
  /\ assemble ("push 0" +:+ ds) = assemble ("push " +:+ ds)
  /\ parse_source ("push " +:+ ip +:+ "." +:+ fp)
     = Some [Opcode "push"
               (Some (Py.Float (Py.float_ (ip +:+ "." +:+ fp))))]
  /\ assemble ("push " +:+ ip +:+ "." +:+ fp)
     = inr (directive 0
              ("push " +:+ Py.repr_float (Py.float_ (ip +:+ "." +:+ fp)))).
Proof.
  intros Hd Hi Hf.
  destruct (assemble_push ds (Py.Int (Py.int ds))) as [Hp Ha];
    [by apply digits_stops_space|by apply push_integer|].
  destruct (assemble_push (String "0" ds) (Py.Int (Py.int (String "0" ds))))
    as [_ Ha0]; [done|by apply push_integer; simpl; apply digits_all|].
  destruct (assemble_push (ip +:+ "." +:+ fp)
              (Py.Float (Py.float_ (ip +:+ "." +:+ fp)))) as [Hpf Haf];
    [by apply float_stops_space|by apply push_float|].
  split; [exact Hp|]. split; [exact Ha|]. split; [|split; [exact Hpf|exact Haf]].
  change ("push 0" +:+ ds) with ("push " +:+ String "0" ds).
  rewrite Ha0, Ha. reflexivity.
Qed.

Lemma C9_numeric_normalised_witness :
  assemble "push 007" = inr (directive 0 "push 7")
  /\ assemble "push .5" = inr (directive 0 "push 0.5").
Proof.
  destruct (C9_numeric_normalised "007" "" "5") as (_ & Ha & _ & _ & Haf);
    [reflexivity|reflexivity|reflexivity|].
  split; [exact Ha|exact Haf].
Defined.

(** ** More on the label table *)


Lemma label_table_lookup_Some ast name a :
  label_table ast !! name = Some a ->
  exists pre post,
    ast = pre ++ Label name :: post
    /\ ¬ declared name post
    /\ a = instruction_count pre.
Proof.
  intros Ha.
  assert (Hd : declared name ast).
  { apply label_table_declared. by eexists. }
  destruct (declared_last _ _ Hd) as (pre & post & -> & Hpost).
  exists pre, post. split; [done|]. split; [done|].
  rewrite label_table_last in Ha by done. congruence.
Qed.

(** X1: the table holds a name exactly when a label node declares it, and
    the address it holds is the number of opcode nodes before the last
    label node of that name; nothing else gets into the table. *)
Theorem X1_label_table_lookup (ast : list node) (name : string) (a : nat) :
  (label_table ast !! name = Some a
   <-> exists pre post,
         ast = pre ++ Label name :: post
         /\ ¬ declared name post
         /\ a = instruction_count pre)
  /\ (label_table ast !! name = None <-> ¬ declared name ast).
Proof.
  split; split.
  - apply label_table_lookup_Some.
  - intros (pre & post & -> & Hpost & ->). by apply label_table_last.
  - intros Hn Hd%label_table_declared. rewrite Hn in Hd. by destruct Hd.
  - apply label_table_undeclared.
Qed.



(** ** The two counters *)

(** X3: the second loop counts as the first one does: when it ends, its
    counter is where the counter of the first loop ended, which is the
    number of instructions rendered, whatever the table. *)
Theorem X3_counter_replay (labels : gmap string nat) (ast : list node)
    (c : nat) (instructions : list string) :
  pass2_from labels (0, []) ast = inr (c, instructions) ->
  c = fst (pass1 ast)
  /\ c = length instructions
  /\ c = instruction_count ast.
Proof.
  intros H. destruct (pass2_counter _ _ _ _ H) as [H1 H2].
  split; [done|]. split; [done|].
  rewrite H1. unfold pass1. by rewrite pass1_from_counter.
Qed.

Lemma X3_counter_replay_witness :
  4 = fst (pass1 countdown)
  /\ 4 = length ["push 1"; "push 2"; "add"; "jmp 0"]
  /\ 4 = instruction_count countdown.
Proof.
  apply (X3_counter_replay (label_table countdown) countdown).
  vm_compute. reflexivity.
Defined.

(** ** The files *)

Lemma generate_error labels ast e :
  generate labels ast = inl e -> exists name, e = UndefinedLabel name.
Proof.
  rewrite generate_render_all.
  intros (o & x & _ & Hr)%render_all_inl.
  apply render_inl in Hr as (a & _ & _ & _ & ->). by eexists.
Qed.

(** X4: a run changes no file but the output file; a run that ends with
    an exception changes no file at all; the exception is the one for the
    input file exactly when the input file is missing, and the one of the
    parser exactly when the input file is there and its text is not
    accepted; and a run that ends without exception has written the
    directives of the instructions to the output file. *)
Theorem X4_run_files (cli : cli_arguments) (fs : gmap string string) :
  (forall path, path <> output cli -> snd (run cli fs) !! path = fs !! path)
  /\ (fst (run cli fs) <> None -> snd (run cli fs) = fs)
  /\ (forall path,
        fst (run cli fs) = Some (FileNotFound path)
        <-> fs !! file cli = None /\ path = file cli)
  /\ (fst (run cli fs) = Some ParseError
      <-> exists source_code,
            fs !! file cli = Some source_code
            /\ parse_source source_code = None)
  /\ (fst (run cli fs) = None
      <-> exists source_code ast instructions,
            fs !! file cli = Some source_code
            /\ parse_source source_code = Some ast
            /\ generate (label_table ast) ast = inr instructions
            /\ snd (run cli fs) = <[output cli := emit instructions]> fs).
Proof.
  unfold run.
  destruct (fs !! file cli) as [source_code|] eqn:Hf; simpl;
    [destruct (parse_source source_code) as [ast|] eqn:Hp; simpl;
      [destruct (generate (label_table ast) ast) as [e|instructions] eqn:Hg;
        simpl; [destruct (generate_error _ _ _ Hg) as [name ->]|]|]|].
  - split; [done|]. split; [done|].
    split; [intros path; split; [done|by intros [? _]]|].
    split; [split; [done|]|split; [done|]].
    + intros (s' & [= <-] & ?). congruence.
    + intros (s' & a' & i' & [= <-] & ? & ? & _). congruence.
  - split; [intros path Hpath; by rewrite lookup_insert_ne|].
    split; [done|].
    split; [intros path; split; [done|by intros [? _]]|].
    split; [split; [done|]|split; [|done]].
    + intros (s' & [= <-] & ?). congruence.
    + intros _. by exists source_code, ast, instructions.
  - split; [done|]. split; [done|].
    split; [intros path; split; [done|by intros [? _]]|].
    split; [split; [|done]|split; [done|]].
    + intros _. by exists source_code.
    + intros (s' & a' & i' & [= <-] & ? & _). congruence.
  - split; [done|]. split; [done|].
    split; [intros path; split; [by intros [= <-]|by intros [_ ->]]|].
    split; [split; [done|]|split; [done|]].
    + by intros (s' & ? & _).
    + by intros (s' & a' & i' & ? & _).
Qed.

(** ** Whitespace around the program *)

Lemma span_app_all f a s :
  all_chars f a = true ->
  span f (a +:+ s) = (a +:+ fst (span f s), snd (span f s)).
Proof.
  intros Ha. induction a as [|c a IH].
  - rewrite !append_nil_l. by destruct (span f s).
  - rewrite append_cons. simpl in *. apply andb_prop in Ha as [-> Ha].
    rewrite IH by done. by rewrite append_cons.
Qed.

Lemma all_chars_app f a b :
  all_chars f (a +:+ b) = all_chars f a && all_chars f b.
Proof.
  induction a as [|c a IH]; [done|].
  rewrite append_cons. simpl. by rewrite IH, andb_assoc.
Qed.

Lemma spaces_stop f ws :
  (forall c, f c = true -> is_space c = false) ->
  all_chars is_space ws = true -> stops f ws = true.
Proof.
  intros Hf. destruct ws as [|c ws]; [done|]. simpl.
  intros [Hc _]%andb_prop. destruct (f c) eqn:E; [|done].
  apply Hf in E. congruence.
Qed.

(** A greedy match of non-space characters stops at the whitespace. *)
Lemma span_app_ws f s ws :
  (forall c, f c = true -> is_space c = false) ->
  all_chars is_space ws = true ->
  span f (s +:+ ws) = (fst (span f s), snd (span f s) +:+ ws).
Proof.
  intros Hf Hws. induction s as [|c s IH].
  - rewrite append_nil_l. simpl. by apply span_stop, spaces_stop.
  - rewrite append_cons. simpl. destruct (f c); [|done].
    rewrite IH. by destruct (span f s).
Qed.

(** The whitespace after a token takes the whitespace put at the end when
    nothing else is left. *)
Lemma span_space_app r ws :
  all_chars is_space ws = true ->
  snd (span is_space (r +:+ ws))
  = match snd (span is_space r) with
    | EmptyString => ""
    | r1 => r1 +:+ ws
    end.
Proof.
  intros Hws. induction r as [|c r IH].
  - rewrite append_nil_l. simpl. by rewrite (span_all _ _ Hws).
  - rewrite append_cons. simpl. destruct (is_space c); [|done].
    destruct (span is_space (r +:+ ws)) as [m1 r1].
    destruct (span is_space r) as [m2 r2]. simpl in *. done.
Qed.

Lemma space_no_word c : is_space c = true -> is_word c = false.
Proof. destruct c as [[] [] [] [] [] [] [] []]; vm_compute; congruence. Qed.

Lemma ident_char_no_space c : is_ident_char c = true -> is_space c = false.
Proof. destruct c as [[] [] [] [] [] [] [] []]; vm_compute; congruence. Qed.

Lemma strip_prefix_app_ws w s ws :
  all_chars (fun c => negb (is_space c)) w = true ->
  all_chars is_space ws = true ->
  strip_prefix w (s +:+ ws)
  = match strip_prefix w s with
    | Some r => Some (r +:+ ws)
    | None => None
    end.
Proof.
  intros Hw Hws. revert s. induction w as [|a w IH]; intros s; [done|].
  simpl in Hw. apply andb_prop in Hw as [Ha Hw].
  destruct s as [|b s].
  - rewrite append_nil_l. simpl. destruct ws as [|b ws]; [done|].
    simpl in Hws. apply andb_prop in Hws as [Hb _].
    destruct (Ascii.eqb_spec a b) as [->|]; [|done].
    rewrite Hb in Ha. done.
  - rewrite append_cons. simpl. destruct (Ascii.eqb a b); [|done].
    by apply IH.
Qed.

Lemma first_char_app_ws r ws :
  all_chars is_space ws = true ->
  word_char (first_char (r +:+ ws)) = word_char (first_char r).
Proof.
  intros Hws. destruct r as [|c r]; [|done].
  rewrite append_nil_l. destruct ws as [|c ws]; [done|]. simpl in *.
  apply andb_prop in Hws as [Hc _]. by apply space_no_word.
Qed.

Lemma stable_star f :
  (forall c, f c = true -> is_space c = false) -> stable (star f).
Proof.
  intros Hf s ws Hws. unfold star. rewrite (span_app_ws _ _ _ Hf Hws).
  destruct (span f s) as [m r]. by left.
Qed.

Lemma stable_plus f :
  (forall c, f c = true -> is_space c = false) -> stable (plus f).
Proof.
  intros Hf s ws Hws. unfold plus. rewrite (span_app_ws _ _ _ Hf Hws).
  destruct (span f s) as [m r]. simpl. destruct m; [done|]. by left.
Qed.

Lemma stable_string_ w :
  all_chars (fun c => negb (is_space c)) w = true -> stable (string_ w).
Proof.
  intros Hw s ws Hws. unfold string_.
  rewrite (strip_prefix_app_ws _ _ _ Hw Hws).
  destruct (strip_prefix w s); [by left|done].
Qed.

Lemma stable_regex_word w :
  all_chars (fun c => negb (is_space c)) w = true -> stable (regex_word w).
Proof.
  intros Hw s ws Hws. unfold regex_word.
  rewrite (strip_prefix_app_ws _ _ _ Hw Hws).
  destruct (strip_prefix w s) as [r|]; [|done].
  unfold boundary. rewrite (first_char_app_ws _ _ Hws).
  destruct (xorb _ _); [by left|done].
Qed.

Lemma stable_alt {A} (p q : Parser A) :
  stable p -> stable q -> stable (alt p q).
Proof.
  intros Hp Hq s ws Hws. unfold alt.
  specialize (Hp s ws Hws). specialize (Hq s ws Hws).
  destruct (p s) as [[v r]|].
  - destruct Hp as [->|[-> ->]]; [by left|by right].
  - by rewrite Hp.
Qed.

Lemma stable_map {A B} (f : A -> B) (p : Parser A) :
  stable p -> stable (map f p).
Proof.
  intros Hp s ws Hws. unfold map. specialize (Hp s ws Hws).
  destruct (p s) as [[v r]|].
  - destruct Hp as [->|[-> ->]]; [by left|by right].
  - by rewrite Hp.
Qed.

Lemma nongrowing_empty {A} (q : Parser A) v r :
  nongrowing q -> q "" = Some (v, r) -> r = "".
Proof.
  intros Hq H. specialize (Hq _ _ _ H). by destruct r; [|simpl in Hq; lia].
Qed.

Lemma stable_seq {A B} (p : Parser A) (q : Parser B) :
  stable p -> stable q -> nongrowing q -> stable (seq p q).
Proof.
  intros Hp Hq Hn s ws Hws. unfold seq. specialize (Hp s ws Hws).
  destruct (p s) as [[a r]|]; [|by rewrite Hp].
  destruct Hp as [->|[-> ->]].
  - specialize (Hq r ws Hws). unfold extend.
    destruct (q r) as [[b r2]|]; [|by rewrite Hq].
    destruct Hq as [->|[-> ->]]; [by left|by right].
  - destruct (q "") as [[b r2]|] eqn:E; [|done].
    right. by rewrite (nongrowing_empty _ _ _ Hn E).
Qed.

Lemma stable_skip {A B} (p : Parser A) (q : Parser B) :
  stable p -> stable q -> nongrowing q -> stable (skip p q).
Proof.
  intros Hp Hq Hn s ws Hws. unfold skip. specialize (Hp s ws Hws).
  destruct (p s) as [[a r]|]; [|by rewrite Hp].
  destruct Hp as [->|[-> ->]].
  - specialize (Hq r ws Hws). unfold extend.
    destruct (q r) as [[b r2]|]; [|by rewrite Hq].
    destruct Hq as [->|[-> ->]]; [by left|by right].
  - destruct (q "") as [[b r2]|] eqn:E; [|done].
    right. by rewrite (nongrowing_empty _ _ _ Hn E).
Qed.

Lemma tok_stable_token {A} (p : Parser A) : stable p -> tok_stable (token p).
Proof.
  intros Hp s ws Hws. unfold token, skip, WHITESPACE, star.
  specialize (Hp s ws Hws).
  destruct (p s) as [[a r]|]; [|by rewrite Hp].
  destruct Hp as [->|[-> ->]]; [|done].
  unfold extend. pose proof (span_space_app r ws Hws) as H.
  destruct (span is_space (r +:+ ws)) as [m1 r1].
  destruct (span is_space r) as [m2 r2]. simpl in H. subst r1.
  by destruct r2.
Qed.

Lemma tok_stable_map {A B} (f : A -> B) (p : Parser A) :
  tok_stable p -> tok_stable (map f p).
Proof.
  intros Hp s ws Hws. unfold map. rewrite (Hp s ws Hws).
  by destruct (p s) as [[v r]|].
Qed.

Lemma tok_stable_alt {A} (p q : Parser A) :
  tok_stable p -> tok_stable q -> tok_stable (alt p q).
Proof.
  intros Hp Hq s ws Hws. unfold alt. rewrite (Hp s ws Hws).
  destruct (p s) as [[v r]|]; [done|]. apply (Hq s ws Hws).
Qed.

Lemma tok_stable_stable {A} (p : Parser A) : tok_stable p -> stable p.
Proof.
  intros Hp s ws Hws. rewrite (Hp s ws Hws).
  destruct (p s) as [[v r]|]; [|done]. destruct r; [by right|by left].
Qed.

Lemma stable_literal w :
  all_chars (fun c => negb (is_space c)) w = true -> stable (literal w).
Proof.
  intros Hw. by apply tok_stable_stable, tok_stable_token, stable_regex_word.
Qed.

Lemma stable_IDENTIFIER : stable IDENTIFIER.
Proof.
  apply stable_map, stable_seq.
  - apply stable_plus, ident_start_no_space.
  - apply stable_star, ident_char_no_space.
  - apply nongrowing_star.
Qed.

Lemma shrinking_operand :
  shrinking (alt (alt NUMBER BOOLEAN) (str_ (add FORWARD_SLASH IDENTIFIER))).
Proof.
  unfold NUMBER, FLOAT, INTEGER, BOOLEAN, TRUE, FALSE, FORWARD_SLASH,
    desc, add, chr, result, str_.
  repeat apply shrinking_alt; repeat apply shrinking_map;
    try (apply shrinking_literal; discriminate).
  - apply shrinking_seq_r; [apply nongrowing_star|].
    apply shrinking_map, shrinking_seq; [by apply shrinking_string_|].
    apply shrinking_nongrowing, shrinking_plus.
  - apply shrinking_plus.
  - apply shrinking_seq; [by apply shrinking_string_|].
    apply shrinking_nongrowing, shrinking_IDENTIFIER.
Qed.

Lemma stable_operand :
  stable (alt (alt NUMBER BOOLEAN) (str_ (add FORWARD_SLASH IDENTIFIER))).
Proof.
  unfold NUMBER, FLOAT, INTEGER, BOOLEAN, TRUE, FALSE, FORWARD_SLASH,
    desc, add, chr, result, str_.
  repeat apply stable_alt; repeat apply stable_map;
    try (by apply stable_literal).
  - apply stable_seq; [apply stable_star, digit_no_space| |].
    + apply stable_map, stable_seq; [by apply stable_string_| |].
      * apply stable_plus, digit_no_space.
      * apply shrinking_nongrowing, shrinking_plus.
    + apply shrinking_nongrowing, shrinking_map, shrinking_seq;
        [by apply shrinking_string_|].
      apply shrinking_nongrowing, shrinking_plus.
  - apply stable_plus, digit_no_space.
  - apply stable_seq; [by apply stable_string_|apply stable_IDENTIFIER|].
    apply shrinking_nongrowing, shrinking_IDENTIFIER.
Qed.

Lemma tok_stable_statement : tok_stable statement.
Proof.
  apply tok_stable_alt.
  - apply tok_stable_map, tok_stable_token, stable_skip;
      [apply stable_IDENTIFIER|by apply stable_string_|].
    by apply shrinking_nongrowing, shrinking_string_.
  - apply tok_stable_map, tok_stable_token.
    unfold STACK_OP, ARITHMETIC_OP, BRANCH_OP, LOGICAL_OP, IO_OP,
      PUSH, POP, DUP, DOT, ADD, SUB, MUL, DIV, POW, MIN, MAX, JMP, JIF, CALL,
      RET, EQ, NE, LT, LE, GT, GE, STORE, LOAD, GSTORE, GLOAD, HLT,
      word, seq_, result.
    repeat apply stable_alt; repeat apply stable_map;
      repeat apply stable_alt; repeat apply stable_map;
      try (by apply stable_literal).
    + apply stable_seq; [by apply stable_literal|apply stable_operand|].
      apply shrinking_nongrowing, shrinking_operand.
    + apply stable_seq.
      * repeat apply stable_alt; by apply stable_literal.
      * apply stable_map, stable_IDENTIFIER.
      * apply shrinking_nongrowing, shrinking_map, shrinking_IDENTIFIER.
    + apply stable_seq.
      * repeat apply stable_alt; apply stable_map; by apply stable_literal.
      * apply stable_map, stable_IDENTIFIER.
      * apply shrinking_nongrowing, shrinking_map, shrinking_IDENTIFIER.
Qed.

Lemma many_statement s ns r :
  many statement s = Some (ns, r) <-> statements s ns r.
Proof.
  split.
  - apply many_fuel_statements.
  - induction 1 as [s Hs|s n r1 ns r Hn _ IH];
      rewrite many_unfold by apply shrinking_statement.
    + by rewrite Hs.
    + by rewrite Hn, IH.
Qed.

Lemma statement_empty : statement "" = None.
Proof. reflexivity. Qed.

(** The loop of the program with whitespace put at the end of the text. *)
Lemma statements_app_ws s ns r ws :
  all_chars is_space ws = true ->
  statements s ns r ->
  many statement (s +:+ ws)
  = Some (ns, match ns, r with
              | _ :: _, EmptyString => ""
              | _, _ => r +:+ ws
              end).
Proof.
  intros Hws. induction 1 as [s Hs|s n r1 ns r Hn Hst IH];
    rewrite many_unfold by apply shrinking_statement;
    rewrite (tok_stable_statement _ _ Hws).
  - by rewrite Hs.
  - rewrite Hn. destruct r1 as [|c r1].
    + inversion Hst; subst; [|by rewrite statement_empty in *].
      by rewrite many_unfold, statement_empty by apply shrinking_statement.
    + unfold extend. rewrite IH. destruct ns as [|n' ns]; [|done].
      inversion Hst; subst. done.
Qed.

Lemma parse_source_app_ws source_code ws :
  all_chars is_space ws = true ->
  parse_source (source_code +:+ ws) = parse_source source_code.
Proof.
  intros Hws. unfold parse_source, parse, skip, program, then_, WHITESPACE, star.
  pose proof (span_space_app source_code ws Hws) as H.
  destruct (span is_space (source_code +:+ ws)) as [m1 r1].
  destruct (span is_space source_code) as [m2 r2]. simpl in H. subst r1.
  destruct r2 as [|c r2]; [done|].
  destruct (many_fuel_enough statement shrinking_statement
              (S (String.length (String c r2))) (String c r2))
    as (ns & r & Hm); [lia|].
  fold (many statement (String c r2)) in Hm. rewrite Hm.
  apply many_statement in Hm.
  rewrite (statements_app_ws _ _ _ _ Hws Hm).
  destruct ns as [|n ns].
  - inversion Hm; subst. by rewrite append_cons.
  - destruct r as [|c' r]; [done|]. by rewrite append_cons.
Qed.

Lemma parse_source_ws_app ws source_code :
  all_chars is_space ws = true ->
  parse_source (ws +:+ source_code) = parse_source source_code.
Proof.
  intros Hws. unfold parse_source, parse, skip, program, then_, WHITESPACE, star.
  rewrite (span_app_all _ _ _ Hws).
  by destruct (span is_space source_code).
Qed.

(** X5: whitespace before the first statement and after the last one is
    of no consequence: the text is accepted or not as without it, with the
    same nodes, and the output is the same; a text of whitespace only is
    the empty program, and its output is empty. *)
Theorem X5_surrounding_whitespace (before after source_code : string) :
  all_chars is_space before = true ->
  all_chars is_space after = true ->
  parse_source (before +:+ source_code +:+ after) = parse_source source_code
  /\ assemble (before +:+ source_code +:+ after) = assemble source_code
  /\ parse_source before = Some []
  /\ assemble before = inr "".
Proof.
  intros Hb Ha.
  assert (H : parse_source (before +:+ source_code +:+ after)
              = parse_source source_code).
  { by rewrite parse_source_ws_app, parse_source_app_ws. }
  assert (Hws : parse_source before = Some []).
  { rewrite <- (append_empty_r before). by rewrite parse_source_ws_app. }
  split; [done|]. split; [unfold assemble; by rewrite H|].
  split; [done|]. unfold assemble. by rewrite Hws.
Qed.

Lemma X5_surrounding_whitespace_witness :
  parse_source ("  " +:+ "push 1" +:+ " ") = parse_source "push 1"
  /\ assemble ("  " +:+ "push 1" +:+ " ") = assemble "push 1"
  /\ parse_source "  " = Some []
  /\ assemble "  " = inr "".
Proof.
  apply (X5_surrounding_whitespace "  " " " "push 1"); reflexivity.
Defined.

(** ** Where a statement starts and ends *)

Lemma span_stops f s m r : span f s = (m, r) -> stops f r = true.
Proof.
  revert m r. induction s as [|c s IH]; intros m r; simpl.
  - by intros [= <- <-].
  - destruct (f c) eqn:E.
    + destruct (span f s) as [m' r']. intros [= <- <-]. by eapply IH.
    + intros [= <- <-]. simpl. by rewrite E.
Qed.

Lemma trims_token {A} (p : Parser A) : trims (token p).
Proof.
  intros s v r. unfold token, skip, WHITESPACE, star.
  destruct (p s) as [[a r0]|]; [|done].
  destruct (span is_space r0) as [m r1] eqn:E. intros [= <- <-].
  by eapply span_stops.
Qed.

Lemma trims_map {A B} (f : A -> B) (p : Parser A) : trims p -> trims (map f p).
Proof.
  intros Hp s v r. unfold map. destruct (p s) as [[a r0]|] eqn:E; [|done].
  intros [= <- <-]. by eapply Hp.
Qed.

Lemma trims_alt {A} (p q : Parser A) : trims p -> trims q -> trims (alt p q).
Proof.
  intros Hp Hq s v r. unfold alt. destruct (p s) as [[a r0]|] eqn:E.
  - intros [= <- <-]. by eapply Hp.
  - apply Hq.
Qed.

Lemma trims_statement : trims statement.
Proof. apply trims_alt; apply trims_map, trims_token. Qed.

Lemma trims_statements s ns r :
  stops is_space s = true -> statements s ns r -> stops is_space r = true.
Proof.
  intros Hs. induction 1 as [|s n r1 ns r Hn _ IH]; [done|].
  apply IH. by eapply trims_statement.
Qed.

Lemma letter_first_alt {A} (p q : Parser A) :
  letter_first p -> letter_first q -> letter_first (alt p q).
Proof.
  intros Hp Hq s v r. unfold alt. destruct (p s) as [[a r0]|] eqn:E.
  - intros _. by eapply Hp.
  - apply Hq.
Qed.

Lemma letter_first_map {A B} (f : A -> B) (p : Parser A) :
  letter_first p -> letter_first (map f p).
Proof.
  intros Hp s v r. unfold map. destruct (p s) as [[a r0]|] eqn:E; [|done].
  intros _. by eapply Hp.
Qed.

Lemma letter_first_skip {A B} (p : Parser A) (q : Parser B) :
  letter_first p -> letter_first (skip p q).
Proof.
  intros Hp s v r. unfold skip. destruct (p s) as [[a r0]|] eqn:E; [|done].
  intros _. by eapply Hp.
Qed.

Lemma letter_first_seq {A B} (p : Parser A) (q : Parser B) :
  letter_first p -> letter_first (seq p q).
Proof.
  intros Hp s v r. unfold seq. destruct (p s) as [[a r0]|] eqn:E; [|done].
  intros _. by eapply Hp.
Qed.

Lemma letter_first_literal w :
  stops is_ident_start w = false -> letter_first (literal w).
Proof.
  intros Hw. apply letter_first_skip. intros s v r. unfold regex_word.
  destruct (strip_prefix w s) as [r0|] eqn:E; [|done].
  intros _. apply strip_prefix_append in E as ->.
  destruct w as [|c w]; [done|]. by rewrite append_cons.
Qed.

Lemma letter_first_IDENTIFIER : letter_first IDENTIFIER.
Proof.
  intros s v r. rewrite IDENTIFIER_spec.
  by destruct (stops is_ident_start s).
Qed.

Lemma letter_first_statement : letter_first statement.
Proof.
  apply letter_first_alt.
  - apply letter_first_map, letter_first_skip, letter_first_skip,
      letter_first_IDENTIFIER.
  - apply letter_first_map, letter_first_skip.
    unfold STACK_OP, ARITHMETIC_OP, BRANCH_OP, LOGICAL_OP, IO_OP,
      PUSH, POP, DUP, DOT, ADD, SUB, MUL, DIV, POW, MIN, MAX, JMP, JIF, CALL,
      RET, EQ, NE, LT, LE, GT, GE, STORE, LOAD, GSTORE, GLOAD, HLT,
      word, seq_, result.
    repeat first
      [ apply letter_first_alt | apply letter_first_map
      | apply letter_first_seq | by apply letter_first_literal ].
Qed.

(** X6: the rest that a statement leaves, and the rest at which the
    program parser stops, never starts with whitespace: when a text is not
    accepted, the place where parsing stopped is a character that is not
    whitespace and at which no statement is recognised. *)
Theorem X6_stops_at_a_token (source_code : string) (ast : list node)
    (rest : string) :
  program source_code = Some (ast, rest) ->
  stops is_space rest = true
  /\ statement rest = None
  /\ (parse_source source_code = None
      <-> exists c rest', rest = String c rest' /\ is_space c = false).
Proof.
  intros Hp.
  destruct (program_total source_code) as (ast' & rest' & Hp' & Hst).
  rewrite Hp in Hp'. injection Hp' as <- <-.
  assert (Hs : stops is_space rest = true).
  { eapply trims_statements; [|exact Hst].
    destruct (span is_space source_code) as [m r0] eqn:E.
    by eapply span_stops. }
  split; [done|]. split; [by eapply statements_stops|].
  rewrite (parse_source_program _ _ _ Hp).
  destruct rest as [|c rest]; simpl in *.
  - split; [done|]. by intros (? & ? & ? & _).
  - split; [|done]. intros _. exists c, rest.
    split; [done|]. by destruct (is_space c).
Qed.

Lemma X6_stops_at_a_token_witness :
  stops is_space "5 pop" = true
  /\ statement "5 pop" = None
  /\ (parse_source "push  1   5 pop" = None
      <-> exists c rest', "5 pop" = String c rest' /\ is_space c = false).
Proof.
  apply (X6_stops_at_a_token "push  1   5 pop"
           [Opcode "push" (Some (Py.Int 1))]).
  vm_compute. reflexivity.
Defined.

(** X7: a statement starts with a letter or an underscore. A text whose
    first character after the leading whitespace is anything else (a
    digit, a sign, the marker of a string, a punctuation character that
    might start a comment) is not accepted, whatever follows. *)
Theorem X7_statement_starts_with_letter (before : string) (c : ascii)
    (rest : string) :
  all_chars is_space before = true ->
  is_space c = false ->
  is_ident_start c = false ->
  statement (String c rest) = None
  /\ parse_source (before +:+ String c rest) = None
  /\ assemble (before +:+ String c rest) = inl ParseError.
Proof.
  intros Hb Hs Hc.
  assert (Hn : statement (String c rest) = None).
  { destruct (statement (String c rest)) as [[n r]|] eqn:E; [|done].
    apply letter_first_statement in E. simpl in E. by rewrite Hc in E. }
  assert (Hp : parse_source (before +:+ String c rest) = None).
  { rewrite parse_source_ws_app by done.
    unfold parse_source, parse, skip, program, then_, WHITESPACE, star.
    simpl. rewrite Hs.
    by rewrite many_unfold, Hn by apply shrinking_statement. }
  split; [done|]. split; [done|]. unfold assemble. by rewrite Hp.
Qed.

Lemma X7_statement_starts_with_letter_witness :
  statement "# a comment" = None
  /\ parse_source (" " +:+ "# a comment") = None
  /\ assemble (" " +:+ "# a comment") = inl ParseError.
Proof.
  apply (X7_statement_starts_with_letter " " "#" " a comment"); reflexivity.
Defined.

(** ** The nodes of an accepted text *)

Lemma span_all_chars f s m r : span f s = (m, r) -> all_chars f m = true.
Proof.
  revert m r. induction s as [|c s IH]; intros m r; simpl.
  - by intros [= <- <-].
  - destruct (f c) eqn:E.
    + destruct (span f s) as [m' r']. intros [= <- <-]. simpl.
      by rewrite E, (IH _ _ eq_refl).
    + by intros [= <- <-].
Qed.

Lemma yields_IDENTIFIER : yields IDENTIFIER (fun v => is_identifier v = true).
Proof.
  intros s v r. rewrite IDENTIFIER_spec.
  destruct s as [|c s]; [done|]. simpl.
  destruct (is_ident_start c) eqn:Ec; [|done]. simpl.
  rewrite (ident_start_char _ Ec).
  destruct (span is_ident_char s) as [m r'] eqn:E. intros [= <- <-].
  simpl. by rewrite Ec, (span_all_chars _ _ _ _ E).
Qed.

Lemma int_go_nonneg acc s :
  (0 <= acc)%Z -> all_chars is_digit s = true -> (0 <= Py.int_go acc s)%Z.
Proof.
  revert acc. induction s as [|c s IH]; intros acc Hacc; [done|]. simpl.
  intros [Hc Hs]%andb_prop. apply IH; [|done].
  assert (0 <= Py.digit_value c)%Z; [|lia].
  unfold Py.digit_value, is_digit, between in *.
  apply andb_prop in Hc as [Hc _]. apply N.leb_le in Hc. lia.
Qed.

Lemma yields_plus f : yields (plus f) (fun v => all_chars f v = true).
Proof.
  intros s v r. unfold plus. destruct (span f s) as [m r'] eqn:E.
  destruct m; [done|]. intros [= <- <-]. by eapply span_all_chars.
Qed.

Lemma yields_result {A B} (v : B) (p : Parser A) (P : B -> Prop) :
  P v -> yields (result v p) P.
Proof. intros Hv. apply yields_map. by intros s x r _. Qed.

Lemma yields_string_ w : yields (string_ w) (fun v => v = w).
Proof.
  intros s v r. unfold string_. destruct (strip_prefix w s); [|done].
  by intros [= <- <-].
Qed.

Lemma yields_operand :
  yields (alt (alt NUMBER BOOLEAN) (str_ (add FORWARD_SLASH IDENTIFIER)))
         operand_ok.
Proof.
  repeat apply yields_alt.
  - apply yields_map. by intros s v r _.
  - apply yields_map.
    eapply yields_weaken; [apply yields_plus|].
    intros v Hv. simpl. by apply int_go_nonneg.
  - by apply yields_result.
  - by apply yields_result.
  - apply yields_map, yields_map.
    eapply yields_weaken;
      [apply yields_seq; [apply yields_string_|apply yields_IDENTIFIER]|].
    intros [a b] [-> Hb]. simpl in *. by exists b.
Qed.

Lemma yields_with_identifier (p : Parser string) :
  yields p (fun w => In w with_identifier) ->
  yields (seq_ p (str_ IDENTIFIER)) parsed_ok.
Proof.
  intros Hp. apply yields_map.
  eapply yields_weaken;
    [apply yields_seq;
       [exact Hp
       |apply (yields_map Py.Str IDENTIFIER
                 (fun v => exists name,
                    v = Py.Str name /\ is_identifier name = true))]|].
  - intros s v r Hv. exists v. split; [done|]. by eapply yields_IDENTIFIER.
  - intros [w a] [Hw Ha]. simpl in *. by right.
Qed.

Lemma yields_keyword w (L : list string) :
  In w L -> yields (literal w) (fun v => In v L).
Proof.
  intros Hw. eapply yields_weaken; [apply yields_literal|]. by intros v ->.
Qed.

Lemma yields_statement : yields statement node_ok.
Proof.
  apply yields_alt.
  - apply yields_map, yields_skip, yields_skip, yields_IDENTIFIER.
  - apply yields_map.
    apply (yields_weaken _ parsed_ok); [|by intros [w|w a]].
    apply yields_skip.
    unfold STACK_OP, ARITHMETIC_OP, BRANCH_OP, LOGICAL_OP, IO_OP,
      PUSH, POP, DUP, DOT, ADD, SUB, MUL, DIV, POW, MIN, MAX, JMP, JIF, CALL,
      RET, EQ, NE, LT, LE, GT, GE, STORE, LOAD, GSTORE, GLOAD, HLT, word.
    repeat apply yields_alt.
    + apply yields_map.
      eapply yields_weaken;
        [apply yields_seq; [apply yields_literal|apply yields_operand]|].
      intros [w a] [-> Ha]. simpl in *. by left.
    + apply yields_map, yields_keyword. simpl. tauto.
    + apply yields_map, yields_keyword. simpl. tauto.
    + apply yields_map, yields_keyword. simpl. tauto.
    + apply yields_map. repeat apply yields_alt;
        apply yields_keyword; simpl; tauto.
    + apply yields_with_identifier. repeat apply yields_alt;
        apply yields_keyword; simpl; tauto.
    + apply yields_map, yields_keyword. simpl. tauto.
    + apply yields_map. repeat apply yields_alt;
        apply yields_result; simpl; tauto.
    + apply yields_with_identifier. repeat apply yields_alt;
        apply yields_result; simpl; tauto.
    + apply yields_map, yields_keyword. simpl. tauto.
Qed.

Lemma node_ok_parse_source source_code ast :
  parse_source source_code = Some ast -> Forall node_ok ast.
Proof.
  intros H%parse_source_statements.
  eapply statements_yields; [apply yields_statement|exact H].
Qed.

(** X8: the nodes of an accepted text have one of four shapes: a label
    whose name is an identifier; an opcode without operand, among the
    eighteen that take none, the comparisons under their internal names;
    [push] with a natural number, a float, or the marker and an
    identifier; a branch or a variable access, the latter under its
    internal name, with an identifier. No other opcode name and no other
    combination of opcode and operand is built. *)
Theorem X8_node_shapes (source_code : string) (ast : list node) (n : node) :
  parse_source source_code = Some ast ->
  In n ast ->
  match n with
  | Label l => is_identifier l = true
  | Opcode w None => In w nullary
  | Opcode w (Some a) =>
      (w = "push" /\ operand_ok a)
      \/ (In w with_identifier
          /\ exists name, a = Py.Str name /\ is_identifier name = true)
  end.
Proof.
  intros Hp Hn. apply node_ok_parse_source in Hp.
  rewrite Forall_forall in Hp. by apply (Hp n), list_elem_of_In.
Qed.

Lemma X8_node_shapes_witness :
  ("push" = "push" /\ operand_ok (Py.Str "/hi"))
  \/ (In "push" with_identifier
      /\ exists name, Py.Str "/hi" = Py.Str name /\ is_identifier name = true).
Proof.
  apply (X8_node_shapes "x: push /hi ge"
           [Label "x"; Opcode "push" (Some (Py.Str "/hi")); Opcode "isge" None]
           (Opcode "push" (Some (Py.Str "/hi")))).
  - vm_compute. reflexivity.
  - simpl. tauto.
Defined.

(** ** The lines of the output *)

Lemma plain_no_newline c : plain c = true -> no_newline c = true.
Proof. unfold plain. by intros [_ ?]%andb_prop. Qed.

Lemma all_chars_impl (f g : ascii -> bool) s :
  (forall c, f c = true -> g c = true) ->
  all_chars f s = true -> all_chars g s = true.
Proof.
  intros Hfg. induction s as [|c s IH]; [done|]. simpl.
  intros [Hc Hs]%andb_prop. by rewrite (Hfg _ Hc), IH.
Qed.

Lemma ident_char_plain c : is_ident_char c = true -> plain c = true.
Proof. destruct c as [[] [] [] [] [] [] [] []]; vm_compute; congruence. Qed.

Lemma identifier_plain name :
  is_identifier name = true -> all_chars plain name = true.
Proof.
  destruct name as [|c name]; [done|]. simpl.
  intros [Hc Hn]%andb_prop.
  rewrite (ident_char_plain _ (ident_start_char _ Hc)). simpl.
  apply (all_chars_impl is_ident_char); [apply ident_char_plain|done].
Qed.

Lemma pretty_N_char_plain x : plain (pretty_N_char x) = true.
Proof. unfold pretty_N_char. by repeat case_match. Qed.

Lemma pretty_N_go_plain x s :
  all_chars plain s = true -> all_chars plain (pretty_N_go x s) = true.
Proof.
  revert s. induction (N.lt_wf_0 x) as [x _ IH]; intros s Hs.
  assert (x = 0 \/ 0 < x)%N as [->|Hx] by lia.
  - by rewrite pretty_N_go_0.
  - rewrite pretty_N_go_step by done. apply IH.
    + by apply N.div_lt.
    + simpl. by rewrite pretty_N_char_plain.
Qed.

Lemma pretty_N_plain (x : N) : all_chars plain (pretty x) = true.
Proof.
  unfold pretty, pretty_N. case_decide; [done|]. by apply pretty_N_go_plain.
Qed.

Lemma pretty_nat_plain (x : nat) : all_chars plain (pretty x) = true.
Proof. apply pretty_N_plain. Qed.

Lemma pretty_Z_plain (x : Z) : all_chars plain (pretty x) = true.
Proof.
  destruct x as [|x|x]; [done|apply pretty_N_plain|].
  unfold pretty, pretty_Z. rewrite all_chars_app.
  apply andb_true_intro. split; [done|apply pretty_N_plain].
Qed.

Lemma zeros_plain n : all_chars plain (Py.zeros n) = true.
Proof. induction n as [|n IH]; [done|]. simpl. exact IH. Qed.

Lemma take_plain n s :
  all_chars plain s = true -> all_chars plain (Py.take n s) = true.
Proof.
  revert s. induction n as [|n IH]; intros s; [done|].
  destruct s as [|c s]; [done|]. simpl.
  intros [-> Hs]%andb_prop. by apply IH.
Qed.

Lemma drop_plain n s :
  all_chars plain s = true -> all_chars plain (Py.drop n s) = true.
Proof.
  revert s. induction n as [|n IH]; intros s; [done|].
  destruct s as [|c s]; [done|]. simpl.
  intros [_ Hs]%andb_prop. by apply IH.
Qed.

Lemma repr_float_plain f : all_chars plain (Py.repr_float f) = true.
Proof.
  destruct f as [m e|]; [|done]. unfold Py.repr_float.
  destruct (m =? 0)%Z; [done|].
  destruct (Py.shortest _ _ _ _ _) as [c0 t0].
  destruct (Py.strip_zeros _ _ _) as [c t]. cbv zeta.
  pose proof (pretty_Z_plain c) as Hds.
  assert (Hmant : all_chars plain
            match pretty c with
            | String d (String _ _ as ds') => String d (String "." ds')
            | _ => pretty c
            end = true).
  { destruct (pretty c) as [|d [|d' ds]]; [done|done|].
    simpl in *. by apply andb_prop in Hds as [-> ->]. }
  repeat match goal with
         | |- context [if ?b then _ else _] => destruct b
         end;
    rewrite ?all_chars_app; repeat (apply andb_true_intro; split);
    try done; try apply pretty_Z_plain; try apply zeros_plain;
    try (by apply take_plain); try (by apply drop_plain).
Qed.

Lemma str_plain a : operand_ok a -> all_chars plain (Py.str a) = true.
Proof.
  destruct a as [z|f|s]; simpl.
  - intros _. apply pretty_Z_plain.
  - intros _. apply repr_float_plain.
  - intros (name & -> & Hn). rewrite all_chars_app.
    apply andb_true_intro. split; [done|by apply identifier_plain].
Qed.

Lemma nullary_plain w : In w nullary -> all_chars plain w = true.
Proof.
  unfold nullary. intros H.
  repeat (destruct H as [<-|H]; [reflexivity|]). destruct H.
Qed.

Lemma with_identifier_plain w :
  In w with_identifier -> all_chars plain w = true.
Proof.
  unfold with_identifier. intros H.
  repeat (destruct H as [<-|H]; [reflexivity|]). destruct H.
Qed.

Lemma all_chars_append f a b :
  all_chars f a = true -> all_chars f b = true ->
  all_chars f (a +:+ b) = true.
Proof. intros Ha Hb. by rewrite all_chars_app, Ha, Hb. Qed.

(** The text of an instruction of an accepted program has no quote and no
    line feed. *)
Lemma render_plain labels w arg text :
  node_ok (Opcode w arg) -> render labels w arg = inr text ->
  all_chars plain text = true.
Proof.
  unfold render. destruct arg as [a|]; simpl.
  - intros [[-> Ha]|[Hw (name & -> & Hn)]].
    + simpl. intros [= <-].
      apply all_chars_append; [done|].
      apply all_chars_append; [done|by apply str_plain].
    + destruct (is_branch w).
      * simpl. destruct (labels !! name) as [addr|]; [|done].
        intros [= <-].
        apply all_chars_append; [by apply with_identifier_plain|].
        apply all_chars_append; [done|apply pretty_nat_plain].
      * intros [= <-].
        apply all_chars_append; [by apply with_identifier_plain|].
        apply all_chars_append; [done|by apply identifier_plain].
  - intros Hw [= <-]. by apply nullary_plain.
Qed.

Lemma split_lines_line cur l rest :
  all_chars no_newline l = true ->
  split_lines cur (l +:+ newline +:+ rest)
  = (cur +:+ l) :: split_lines "" rest.
Proof.
  revert cur. induction l as [|c l IH]; intros cur Hl.
  - rewrite append_nil_l, append_empty_r. reflexivity.
  - rewrite append_cons. simpl in *. apply andb_prop in Hl as [Hc Hl].
    unfold no_newline in Hc. destruct (Ascii.eqb c "010"); [done|].
    rewrite IH by done. by rewrite append_assoc.
Qed.

Lemma directive_line_no_newline index text :
  all_chars plain text = true ->
  all_chars no_newline (directive_line index text) = true.
Proof.
  intros Ht. unfold directive_line.
  apply all_chars_append; [done|]. apply all_chars_append.
  { apply (all_chars_impl plain); [apply plain_no_newline|].
    apply pretty_nat_plain. }
  apply all_chars_append; [done|]. apply all_chars_append; [done|].
  apply all_chars_append; [|done].
  by apply (all_chars_impl plain); [apply plain_no_newline|].
Qed.

Lemma directive_directive_line index text :
  directive index text = directive_line index text +:+ newline.
Proof. unfold directive, directive_line. by rewrite !append_assoc. Qed.

Lemma lines_directives k instructions :
  Forall (fun t => all_chars plain t = true) instructions ->
  lines (concat_strings (imap (fun i => directive (k + i)) instructions))
  = imap (fun i => directive_line (k + i)) instructions.
Proof.
  revert k. induction instructions as [|t l IH]; intros k Hl; [done|].
  apply Forall_cons in Hl as [Ht Hl].
  cbn [imap concat_strings foldr]. unfold lines.
  rewrite directive_directive_line, append_assoc.
  rewrite split_lines_line by by apply directive_line_no_newline.
  rewrite append_nil_l. f_equal.
  specialize (IH (S k) Hl). unfold lines, concat_strings in IH.
  erewrite imap_ext; [erewrite IH|].
  - apply imap_ext. intros i x _. simpl. f_equal. lia.
  - intros i x _. simpl. f_equal. lia.
Qed.

(** X9: in the output of an accepted program no instruction text has a
    quote or a line feed in it, so that the two quotes of a directive
    delimit the text, and the lines of the output are the directives, one
    line for each instruction, in order. *)
Theorem X9_one_line_per_instruction (source_code : string) (ast : list node)
    (instructions : list string) :
  parse_source source_code = Some ast ->
  generate (label_table ast) ast = inr instructions ->
  Forall (fun text => all_chars plain text = true) instructions
  /\ lines (emit instructions) = imap directive_line instructions
  /\ length (lines (emit instructions)) = instruction_count ast.
Proof.
  intros Hp Hg.
  assert (Hplain : Forall (fun t => all_chars plain t = true) instructions).
  { apply node_ok_parse_source in Hp. rewrite Forall_forall in Hp.
    rewrite generate_render_all, render_all_inr in Hg.
    apply Forall_forall. intros text Ht.
    apply list_elem_of_lookup in Ht as [i Hi].
    destruct (Forall2_lookup_r _ _ _ _ _ Hg Hi) as ([w arg] & Hw & Hr).
    eapply render_plain; [|exact Hr]. apply Hp.
    apply list_elem_of_In, in_instructions_of, list_elem_of_In.
    by eapply list_elem_of_lookup_2. }
  assert (Hl : lines (emit instructions) = imap directive_line instructions).
  { rewrite emit_directives. by apply (lines_directives 0). }
  split; [done|]. split; [done|].
  rewrite Hl, length_imap. by eapply generate_length.
Qed.

Lemma X9_one_line_per_instruction_witness :
  Forall (fun text => all_chars plain text = true)
         ["push 1"; "push 2"; "add"; "jmp 0"]
  /\ lines (emit ["push 1"; "push 2"; "add"; "jmp 0"])
     = imap directive_line ["push 1"; "push 2"; "add"; "jmp 0"]
  /\ length (lines (emit ["push 1"; "push 2"; "add"; "jmp 0"]))
     = instruction_count countdown.
Proof.
  apply (X9_one_line_per_instruction
           "start: push 1 push 2 add jmp start" countdown).
  - vm_compute. reflexivity.
  - vm_compute. reflexivity.
Defined.

(** ** Integers read and written *)

Lemma int_go_app acc a b :
  Py.int_go acc (a +:+ b) = Py.int_go (Py.int_go acc a) b.
Proof.
  revert acc. induction a as [|c a IH]; intros acc; [done|].
  rewrite append_cons. simpl. apply IH.
Qed.

Lemma pretty_N_char_digit x :
  (x < 10)%N ->
  is_digit (pretty_N_char x) = true
  /\ Py.digit_value (pretty_N_char x) = Z.of_N x.
Proof.
  intros Hx.
  assert (x = 0 \/ x = 1 \/ x = 2 \/ x = 3 \/ x = 4 \/ x = 5 \/ x = 6
          \/ x = 7 \/ x = 8 \/ x = 9)%N as H by lia.
  repeat (destruct H as [->|H]; [done|]). by subst.
Qed.

(** The digits that [pretty] writes for [x], before whatever is already
    written: digits only, at least one when [x] is not 0, and read back
    they give [x]. *)
Lemma pretty_N_go_digits (x : N) :
  exists d,
    (forall s, pretty_N_go x s = d +:+ s)
    /\ all_chars is_digit d = true
    /\ ((0 < x)%N -> d <> "")
    /\ forall acc,
         Py.int_go acc d
         = (acc * 10 ^ Z.of_nat (String.length d) + Z.of_N x)%Z.
Proof.
  induction (N.lt_wf_0 x) as [x _ IH].
  assert (x = 0 \/ 0 < x)%N as [->|Hx] by lia.
  - exists "". split; [done|]. split; [done|]. split; [lia|].
    intros acc. simpl. lia.
  - destruct (IH (x `div` 10)%N) as (d & Hd & Hall & _ & Hint).
    { by apply N.div_lt. }
    destruct (pretty_N_char_digit (x `mod` 10)%N) as [Hc Hv].
    { by apply N.mod_lt. }
    exists (d +:+ String (pretty_N_char (x `mod` 10)) "").
    split; [|split; [|split]].
    + intros s. rewrite pretty_N_go_step by done.
      by rewrite Hd, append_assoc.
    + rewrite all_chars_app, Hall. simpl. by rewrite Hc.
    + intros _. by destruct d.
    + intros acc. rewrite int_go_app, Hint. simpl. rewrite Hv.
      rewrite length_append. simpl.
      rewrite Nat2Z.inj_add, Z.pow_add_r by lia.
      rewrite (N.div_mod x 10) at 3 by done.
      rewrite N2Z.inj_add, N2Z.inj_mul. simpl Z.of_N. lia.
Qed.

Lemma int_pretty_N (x : N) :
  is_digits (pretty x) = true /\ Py.int (pretty x) = Z.of_N x.
Proof.
  unfold pretty, pretty_N. case_decide as H0; [by subst|].
  destruct (pretty_N_go_digits x) as (d & Hd & Hall & Hne & Hint).
  rewrite Hd, append_empty_r. split.
  - destruct d as [|c d]; [by destruct Hne; [lia|]|]. exact Hall.
  - unfold Py.int. rewrite Hint. lia.
Qed.

Lemma int_pretty_Z (z : Z) :
  (0 <= z)%Z -> is_digits (pretty z) = true /\ Py.int (pretty z) = z.
Proof.
  intros Hz. destruct z as [|p|p]; [done| |lia].
  apply (int_pretty_N (Npos p)).
Qed.

(** X10: the decimal writing of the integer that digits denote is again
    digits and denotes the same integer; [push] with the rendered operand
    in place of the original one is accepted and gives the same output,
    which has the rendered operand in it: rendering integer operands is a
    normal form. *)
Theorem X10_integer_round_trip (ds : string) :
  is_digits ds = true ->
  is_digits (pretty (Py.int ds)) = true
  /\ Py.int (pretty (Py.int ds)) = Py.int ds
  /\ assemble ("push " +:+ pretty (Py.int ds)) = assemble ("push " +:+ ds)
  /\ assemble ("push " +:+ ds)
     = inr (directive 0 ("push " +:+ pretty (Py.int ds))).
Proof.
  intros Hd.
  destruct (int_pretty_Z (Py.int ds)) as [Hp Hi].
  { by apply int_go_nonneg, digits_all. }
  destruct (assemble_push ds (Py.Int (Py.int ds))) as [_ Ha];
    [by apply digits_stops_space|by apply push_integer|].
  destruct (assemble_push (pretty (Py.int ds))
              (Py.Int (Py.int (pretty (Py.int ds))))) as [_ Ha'];
    [by apply digits_stops_space|by apply push_integer|].
  split; [done|]. split; [done|]. split; [|done].
  rewrite Ha', Ha. simpl. by rewrite Hi.
Qed.

Lemma X10_integer_round_trip_witness :
  is_digits (pretty (Py.int "0042")) = true
  /\ Py.int (pretty (Py.int "0042")) = Py.int "0042"
  /\ assemble ("push " +:+ pretty (Py.int "0042"))
     = assemble ("push " +:+ "0042")
  /\ assemble ("push " +:+ "0042")
     = inr (directive 0 ("push " +:+ pretty (Py.int "0042"))).
Proof.
  apply (X10_integer_round_trip "0042"). reflexivity.
Defined.

(** ** Labels that no branch refers to *)

(** Two tables that agree outside [name] still do after the same nodes,
    and the counter is the same. *)
Lemma pass1_from_agree name ast c (labels1 labels2 : gmap string nat) :
  (forall n, n <> name -> labels1 !! n = labels2 !! n) ->
  fst (pass1_from (c, labels1) ast) = fst (pass1_from (c, labels2) ast)
  /\ forall n, n <> name ->
       snd (pass1_from (c, labels1) ast) !! n
       = snd (pass1_from (c, labels2) ast) !! n.
Proof.
  revert c labels1 labels2.
  induction ast as [|[l|o x] ast IH]; intros c labels1 labels2 Hagree.
  - done.
  - apply IH. intros n Hn. rewrite !lookup_insert.
    case_decide; [done|by apply Hagree].
  - by apply IH.
Qed.

Lemma label_table_remove pre name post n :
  n <> name ->
  label_table (pre ++ Label name :: post) !! n
  = label_table (pre ++ post) !! n.
Proof.
  intros Hn. unfold label_table, pass1.
  rewrite !pass1_from_app. destruct (pass1_from (0, ∅) pre) as [c labels].
  simpl. apply (pass1_from_agree name post c); [|done].
  intros n' Hn'. by rewrite lookup_insert_ne.
Qed.

Lemma render_all_ext labels1 labels2 l :
  (forall opcode arg,
     In (opcode, arg) l ->
     render labels1 opcode arg = render labels2 opcode arg) ->
  render_all labels1 l = render_all labels2 l.
Proof.
  induction l as [|[o a] l IH]; intros H; [done|]. simpl.
  rewrite (H o a) by by left. rewrite IH; [done|].
  intros o' a' Hin. apply H. by right.
Qed.

(** X11: a label declaration that no branch instruction refers to can be
    taken out of the program: the instructions generated are the same,
    error included, and so is the output. *)
Theorem X11_unreferenced_label (pre post : list node) (name : string) :
  ¬ referenced name (pre ++ post) ->
  generate (label_table (pre ++ Label name :: post))
           (pre ++ Label name :: post)
  = generate (label_table (pre ++ post)) (pre ++ post)
  /\ instructions_of (pre ++ Label name :: post)
     = instructions_of (pre ++ post).
Proof.
  intros Hr.
  assert (Hi : instructions_of (pre ++ Label name :: post)
               = instructions_of (pre ++ post)).
  { by rewrite !instructions_of_app. }
  split; [|done]. rewrite !generate_render_all, Hi.
  apply render_all_ext. intros o a Hin%in_instructions_of.
  unfold render. destruct a as [a|]; [|done].
  destruct (is_branch o) eqn:Hb; [|done].
  destruct a as [z|f|n]; [done|done|]. simpl.
  destruct (decide (n = name)) as [->|Hn].
  - destruct Hr. by exists o.
  - by rewrite label_table_remove.
Qed.

Lemma X11_unreferenced_label_witness :
  generate
    (label_table
       ([Label "a"; Opcode "pop" None] ++ Label "unused"
          :: [Opcode "jmp" (Some (Py.Str "a"))]))
    ([Label "a"; Opcode "pop" None] ++ Label "unused"
       :: [Opcode "jmp" (Some (Py.Str "a"))])
  = generate
      (label_table
         ([Label "a"; Opcode "pop" None]
            ++ [Opcode "jmp" (Some (Py.Str "a"))]))
      ([Label "a"; Opcode "pop" None] ++ [Opcode "jmp" (Some (Py.Str "a"))])
  /\ instructions_of
       ([Label "a"; Opcode "pop" None] ++ Label "unused"
          :: [Opcode "jmp" (Some (Py.Str "a"))])
     = instructions_of
         ([Label "a"; Opcode "pop" None]
            ++ [Opcode "jmp" (Some (Py.Str "a"))]).
Proof.
  apply (X11_unreferenced_label [Label "a"; Opcode "pop" None]
           [Opcode "jmp" (Some (Py.Str "a"))] "unused").
  intros (o & Hin & _). simpl in Hin.
  destruct Hin as [H|[H|[H|[]]]]; discriminate H.
Defined.

(** ** Operands that are not accepted *)

Lemma strip_prefix_head a w c rest :
  Ascii.eqb a c = false -> strip_prefix (String a w) (String c rest) = None.
Proof. simpl. by intros ->. Qed.

Lemma string_head a w c rest :
  Ascii.eqb a c = false -> string_ (String a w) (String c rest) = None.
Proof. intros H. unfold string_. by rewrite strip_prefix_head. Qed.

Lemma literal_head a w c rest :
  Ascii.eqb a c = false -> literal (String a w) (String c rest) = None.
Proof.
  intros H. unfold literal, desc, token, skip, regex_word.
  by rewrite strip_prefix_head.
Qed.

Lemma operand_rejects c rest :
  no_operand_start c = true ->
  alt (alt NUMBER BOOLEAN) (str_ (add FORWARD_SLASH IDENTIFIER))
      (String c rest) = None.
Proof.
  unfold no_operand_start. rewrite !andb_true_iff, !negb_true_iff.
  intros [[[[Hd Hp] Hm] Ht] Hf].
  assert (Hs : span is_digit (String c rest) = ("", String c rest)).
  { apply span_stop. simpl. by rewrite Hd. }
  assert (H1 : FLOAT (String c rest) = None).
  { unfold FLOAT, desc, map, add, map, seq, star, chr. rewrite Hs.
    by rewrite string_head. }
  assert (H2 : INTEGER (String c rest) = None).
  { unfold INTEGER, desc, map, plus. by rewrite Hs. }
  assert (H3 : TRUE (String c rest) = None).
  { unfold TRUE, result, map. by rewrite literal_head. }
  assert (H4 : FALSE (String c rest) = None).
  { unfold FALSE, result, map. by rewrite literal_head. }
  unfold alt, NUMBER, BOOLEAN, alt. rewrite H1, H2, H3, H4.
  unfold str_, add, map, seq, FORWARD_SLASH. by rewrite string_head.
Qed.

Lemma keyword_space w c rest :
  word_char (last_char w) = true -> is_space c = false ->
  literal w (w +:+ String " " (String c rest)) = Some (w, String c rest).
Proof.
  intros Hw Hc. rewrite literal_app by done. simpl. by rewrite Hc.
Qed.

Lemma statement_push_rejects c rest :
  is_space c = false -> no_operand_start c = true ->
  statement ("push " +:+ String c rest) = None.
Proof.
  intros Hs Hc. unfold statement. rewrite alt_None.
  2:{ unfold LABEL, map, token, skip. rewrite IDENTIFIER_spec. reflexivity. }
  unfold OPCODE, map, token, skip.
  assert (Hpush : PUSH ("push " +:+ String c rest) = None).
  { unfold PUSH, seq_, map, seq.
    change ("push " +:+ String c rest)
      with ("push" +:+ String " " (String c rest)).
    rewrite keyword_space by done. by rewrite operand_rejects. }
  rewrite alt_None; [reflexivity|].
  rewrite alt_None; [reflexivity|].
  rewrite alt_None; [reflexivity|].
  rewrite alt_None; [reflexivity|].
  rewrite alt_None; [reflexivity|].
  unfold STACK_OP.
  rewrite alt_None; [reflexivity|].
  rewrite alt_None; [reflexivity|].
  rewrite alt_None; [reflexivity|]. exact Hpush.
Qed.

Lemma parse_source_rejects s :
  stops is_space s = true -> s <> "" -> statement s = None ->
  parse_source s = None.
Proof.
  intros Hs Hne Hn.
  unfold parse_source, parse, skip, program, then_, WHITESPACE, star.
  rewrite (span_stop _ _ Hs).
  rewrite many_unfold, Hn by apply shrinking_statement. by destruct s.
Qed.

(** X12: [push] takes no operand that starts with anything but a digit, a
    point, the marker, or the first letter of [true] and [false]: a sign,
    a quote or another letter after [push] makes the text unacceptable.
    There is no negative literal and no quoted string. *)
Theorem X12_push_operand_rejected (c : ascii) (rest : string) :
  is_space c = false ->
  no_operand_start c = true ->
  statement ("push " +:+ String c rest) = None
  /\ parse_source ("push " +:+ String c rest) = None.
Proof.
  intros Hs Hc.
  assert (Hn : statement ("push " +:+ String c rest) = None)
    by by apply statement_push_rejects.
  split; [done|]. by apply parse_source_rejects.
Qed.

Lemma X12_push_operand_rejected_witness :
  statement "push -1" = None /\ parse_source "push -1" = None.
Proof.
  apply (X12_push_operand_rejected "-" "1"); reflexivity.
Defined.

Lemma statement_None s :
  LABEL s = None -> STACK_OP s = None -> ARITHMETIC_OP s = None ->
  BRANCH_OP s = None -> LOGICAL_OP s = None -> IO_OP s = None ->
  word HLT s = None ->
  statement s = None.
Proof.
  intros H0 H1 H2 H3 H4 H5 H6.
  unfold statement, OPCODE, map, token, skip, alt.
  by rewrite H0, H1, H2, H3, H4, H5, H6.
Qed.

Lemma seq_identifier_rejects (p : Parser string) s w c rest :
  p s = Some (w, String c rest) -> is_ident_start c = false ->
  seq_ p (str_ IDENTIFIER) s = None.
Proof.
  intros Hp Hc. unfold seq_, str_, map, seq. rewrite Hp, IDENTIFIER_spec.
  simpl. by rewrite Hc.
Qed.

Lemma result_Some {A B} (v : B) (p : Parser A) s a r :
  p s = Some (a, r) -> result v p s = Some (v, r).
Proof. intros H. unfold result, map. by rewrite H. Qed.

Lemma statement_identifier_rejects kw c rest :
  In kw identifier_keywords ->
  is_space c = false -> is_ident_start c = false ->
  statement (kw +:+ " " +:+ String c rest) = None.
Proof.
  intros Hkw Hs Hc. unfold identifier_keywords in Hkw.
  repeat (destruct Hkw as [<-|Hkw]; [|]); [..|destruct Hkw];
    apply statement_None; try reflexivity.
  - unfold BRANCH_OP. rewrite alt_None; [reflexivity|].
    eapply seq_identifier_rejects; [|exact Hc].
    do 2 apply alt_Some. by apply (keyword_space "jmp").
  - unfold BRANCH_OP. rewrite alt_None; [reflexivity|].
    eapply seq_identifier_rejects; [|exact Hc].
    apply alt_Some. rewrite alt_None; [|reflexivity].
    by apply (keyword_space "jif").
  - unfold BRANCH_OP. rewrite alt_None; [reflexivity|].
    eapply seq_identifier_rejects; [|exact Hc].
    rewrite alt_None; [|reflexivity]. by apply (keyword_space "call").
  - eapply seq_identifier_rejects; [|exact Hc].
    do 3 apply alt_Some. apply result_Some with (a := "store").
    by apply (keyword_space "store").
  - eapply seq_identifier_rejects; [|exact Hc].
    do 2 apply alt_Some. rewrite alt_None; [|reflexivity].
    apply result_Some with (a := "load"). by apply (keyword_space "load").
  - eapply seq_identifier_rejects; [|exact Hc].
    apply alt_Some. rewrite alt_None; [|reflexivity].
    apply result_Some with (a := "gstore").
    by apply (keyword_space "gstore").
  - eapply seq_identifier_rejects; [|exact Hc].
    rewrite alt_None; [|reflexivity].
    apply result_Some with (a := "gload"). by apply (keyword_space "gload").
Qed.

(** X13: a branch or a variable access takes an identifier and nothing
    else: [jmp], [jif], [call], [store], [load], [gstore] or [gload]
    followed by a number, the marker, or any other text that does not
    start with a letter or an underscore is not a statement, and the text
    is not accepted. A branch to a numeric address cannot be written. *)
Theorem X13_identifier_operand_required (kw : string) (c : ascii)
    (rest : string) :
  In kw identifier_keywords ->
  is_space c = false ->
  is_ident_start c = false ->
  statement (kw +:+ " " +:+ String c rest) = None
  /\ parse_source (kw +:+ " " +:+ String c rest) = None.
Proof.
  intros Hkw Hs Hc.
  assert (Hn : statement (kw +:+ " " +:+ String c rest) = None)
    by by apply statement_identifier_rejects.
  split; [done|]. apply parse_source_rejects; [|..|done].
  - unfold identifier_keywords in Hkw.
    repeat (destruct Hkw as [<-|Hkw]; [reflexivity|]). destruct Hkw.
  - unfold identifier_keywords in Hkw.
    repeat (destruct Hkw as [<-|Hkw]; [discriminate|]). destruct Hkw.
Qed.

Lemma X13_identifier_operand_required_witness :
  statement "jmp 3" = None /\ parse_source "jmp 3" = None.
Proof.
  apply (X13_identifier_operand_required "jmp" "3" "").
  - unfold identifier_keywords. simpl. tauto.
  - reflexivity.
  - reflexivity.
Defined.

(** ** The keywords and their opcode names *)

Lemma map_Some {A B} (f : A -> B) (p : Parser A) s a r :
  p s = Some (a, r) -> map f p s = Some (f a, r).
Proof. intros H. unfold map. by rewrite H. Qed.

Lemma seq_Some {A B} (p : Parser A) (q : Parser B) s a r1 b r2 :
  p s = Some (a, r1) -> q r1 = Some (b, r2) ->
  seq p q s = Some ((a, b), r2).
Proof. intros Hp Hq. unfold seq. by rewrite Hp, Hq. Qed.

Lemma keyword_gap w rest :
  word_char (last_char w) = true ->
  literal w (w +:+ String " " rest) = Some (w, snd (span is_space rest)).
Proof.
  intros Hw. rewrite literal_app by done. simpl.
  by destruct (span is_space rest).
Qed.

Lemma WHITESPACE_trimmed s :
  WHITESPACE (snd (span is_space s)) = Some ("", snd (span is_space s)).
Proof.
  unfold WHITESPACE, star. destruct (span is_space s) as [m r] eqn:E.
  simpl. by rewrite (span_stop _ _ (span_stops _ _ _ _ E)).
Qed.

(** The text is read statement by statement. *)
Lemma parse_source_cons s n r :
  stops is_space s = true -> statement s = Some (n, r) ->
  parse_source s = cons n <$> parse_source r.
Proof.
  intros Hs Hn. pose proof (trims_statement _ _ _ Hn) as Hr.
  unfold parse_source, parse, skip, program, then_, WHITESPACE, star.
  rewrite (span_stop _ _ Hs), (span_stop _ _ Hr).
  rewrite many_unfold by apply shrinking_statement. rewrite Hn.
  destruct (many statement r) as [[vs r']|]; [|done].
  by destruct (eof r') as [[]|].
Qed.

Lemma parse_source_trimmed s :
  parse_source (snd (span is_space s)) = parse_source s.
Proof.
  destruct (span is_space s) as [m r] eqn:E. simpl.
  rewrite (span_append _ _ _ _ E). symmetry. apply parse_source_ws_app.
  by eapply span_all_chars.
Qed.

(** The alternative that takes the text: the ones before it fail on the
    first characters. *)
Ltac pick_alternative :=
  repeat first [ rewrite alt_None by reflexivity | apply alt_Some ].

Ltac not_a_label :=
  unfold statement;
  (rewrite alt_None;
    [|unfold LABEL, map, token, skip; rewrite IDENTIFIER_spec; reflexivity]).

Lemma statement_nullary kw canon rest :
  In (kw, canon) nullary_table ->
  statement (kw +:+ " " +:+ rest)
  = Some (Opcode canon None, snd (span is_space rest)).
Proof.
  intros Hkw. unfold nullary_table in Hkw.
  pose proof (WHITESPACE_trimmed rest) as Hws.
  repeat (destruct Hkw as [[= <- <-]|Hkw]; [|]); [..|destruct Hkw];
    not_a_label; unfold OPCODE, token;
    match goal with
    | |- _ = Some (Opcode ?c None, ?r) =>
        change (Opcode c None) with (opcode (Word c));
        apply map_Some; unfold skip;
        match goal with
        | |- match ?p ?s with _ => _ end = _ =>
            assert (p s = Some (Word c, r)) as ->; [|by rewrite Hws]
        end
    end;
    unfold STACK_OP, ARITHMETIC_OP, BRANCH_OP, LOGICAL_OP,
      POP, DUP, DOT, ADD, SUB, MUL, DIV, POW, MIN, MAX, RET,
      EQ, NE, LT, LE, GT, GE, HLT, word, result;
    pick_alternative; apply map_Some; pick_alternative;
    try (eapply (map_Some (fun _ => _))); by apply keyword_gap.
Qed.

Lemma statement_identifier kw canon name rest :
  In (kw, canon) identifier_table ->
  is_identifier name = true ->
  stops is_ident_char rest = true ->
  statement (kw +:+ " " +:+ name +:+ rest)
  = Some (Opcode canon (Some (Py.Str name)), snd (span is_space rest)).
Proof.
  intros Hkw Hn Hr. unfold identifier_table in Hkw.
  pose proof (WHITESPACE_trimmed rest) as Hws.
  assert (Hgap : snd (span is_space (name +:+ rest)) = name +:+ rest).
  { rewrite span_stop; [done|].
    destruct name as [|c name]; [done|]. rewrite append_cons. simpl in *.
    apply andb_prop in Hn as [Hc _]. by rewrite (ident_start_no_space _ Hc). }
  repeat (destruct Hkw as [[= <- <-]|Hkw]; [|]); [..|destruct Hkw];
    not_a_label; unfold OPCODE, token;
    match goal with
    | |- _ = Some (Opcode ?c (Some ?v), ?r) =>
        change (Opcode c (Some v)) with (opcode (Pair c v));
        apply map_Some; unfold skip;
        match goal with
        | |- match ?p ?s with _ => _ end = _ =>
            assert (p s = Some (Pair c v, rest)) as ->;
            [|unfold WHITESPACE, star; by destruct (span is_space rest)]
        end;
        unfold STACK_OP, ARITHMETIC_OP, BRANCH_OP, LOGICAL_OP, IO_OP,
          JMP, JIF, CALL, STORE, LOAD, GSTORE, GLOAD, seq_, str_, result;
        pick_alternative;
        apply (map_Some (fun wa => Pair (fst wa) (snd wa)) _ _ (c, v));
        apply (seq_Some _ _ _ _ (name +:+ rest));
        [pick_alternative; try (eapply (map_Some (fun _ => _)));
         rewrite <- Hgap at 2; by apply keyword_gap
        |apply map_Some; by apply IDENTIFIER_app]
    end.
Qed.

(** X14: a keyword without operand, a space and any text: the first node
    is the instruction of the keyword, with the name the machine has for
    it ([eq] is [iseq], [ne] is [isneq], and so on for the comparisons),
    and the text after it is read as it would be alone. *)
Theorem X14_instruction_without_operand (kw canon rest : string) :
  In (kw, canon) nullary_table ->
  statement (kw +:+ " " +:+ rest)
  = Some (Opcode canon None, snd (span is_space rest))
  /\ parse_source (kw +:+ " " +:+ rest)
     = cons (Opcode canon None) <$> parse_source rest.
Proof.
  intros Hkw. pose proof (statement_nullary _ _ rest Hkw) as Hs.
  split; [done|].
  assert (Hk : stops is_space (kw +:+ " " +:+ rest) = true).
  { unfold nullary_table in Hkw.
    repeat (destruct Hkw as [[= <- <-]|Hkw]; [reflexivity|]). destruct Hkw. }
  rewrite (parse_source_cons _ _ _ Hk Hs).
  by rewrite parse_source_trimmed.
Qed.

Lemma X14_instruction_without_operand_witness :
  In ("eq", "iseq") nullary_table
  /\ statement "eq  jif done"
     = Some (Opcode "iseq" None, snd (span is_space " jif done"))
  /\ parse_source "eq  jif done"
     = cons (Opcode "iseq" None) <$> parse_source " jif done".
Proof.
  split; [unfold nullary_table; simpl; tauto|].
  apply (X14_instruction_without_operand "eq" "iseq" " jif done").
  unfold nullary_table; simpl; tauto.
Defined.

(** X15: a keyword with an identifier ([jmp], [jif], [call], [store],
    [load], [gstore], [gload]), a space, an identifier and a text that does
    not go on with a character of an identifier: the first node is the
    instruction with the identifier as its operand, under the name the
    machine has for it ([store] is [store_l], [gload] is [load_g], ...),
    and the text after it is read as it would be alone. *)
Theorem X15_instruction_with_identifier (kw canon name rest : string) :
  In (kw, canon) identifier_table ->
  is_identifier name = true ->
  stops is_ident_char rest = true ->
  statement (kw +:+ " " +:+ name +:+ rest)
  = Some (Opcode canon (Some (Py.Str name)), snd (span is_space rest))
  /\ parse_source (kw +:+ " " +:+ name +:+ rest)
     = cons (Opcode canon (Some (Py.Str name))) <$> parse_source rest.
Proof.
  intros Hkw Hn Hr.
  pose proof (statement_identifier _ _ _ rest Hkw Hn Hr) as Hs.
  split; [done|].
  assert (Hk : stops is_space (kw +:+ " " +:+ name +:+ rest) = true).
  { unfold identifier_table in Hkw.
    repeat (destruct Hkw as [[= <- <-]|Hkw]; [reflexivity|]). destruct Hkw. }
  rewrite (parse_source_cons _ _ _ Hk Hs).
  by rewrite parse_source_trimmed.
Qed.

Lemma X15_instruction_with_identifier_witness :
  statement "gstore total pop"
  = Some (Opcode "store_g" (Some (Py.Str "total")), "pop")
  /\ parse_source "gstore total pop"
     = cons (Opcode "store_g" (Some (Py.Str "total"))) <$> parse_source " pop".
Proof.
  apply (X15_instruction_with_identifier "gstore" "store_g" "total" " pop").
  - unfold identifier_table; simpl; tauto.
  - reflexivity.
  - reflexivity.
Defined.
